(** * Engine reporting extension: the per-request trace builder

    A shallow embedding of [EngineReportingExtension] and of its helper
    functions (path keying, trace tree construction, error rewriting,
    variable and header redaction, end-of-request flags), with the
    properties of the specification proved or refuted against it.

    Conventions of the embedding:
    - JS objects that are mutated in place ([Trace.Node], [GraphQLError] and
      the arrays it refers to) live in an explicit store and are referred to
      by their allocation index; a [Map] is a [gmap], and so are the own
      properties of a plain object, whose reads and assignments go through
      [Object.prototype] where the language says so;
    - a JS exception is the [None] of an [option] result in the tree
      builder, and [Throws] where the code has a [try]/[catch] or calls code
      of the user;
    - a Number that holds an integer is that integer, rounded as a double
      is where it matters;
    - functions of the [graphql] package ([responsePathAsArray], the
      [GraphQLError] constructor) and built-ins ([Array.prototype.join],
      [JSON.stringify], [String.prototype.toLowerCase]) are modelled on the
      fragment of values the extension handles. *)

From Stdlib Require Import Ascii.
From stdpp Require Import gmap strings list fin_maps pretty.

#[local] Open Scope string_scope.
#[local] Open Scope list_scope.

(** ** Path keying *)

Module PathKey.

(** [path.key : string | number]; array indices are non-negative integers. *)
Inductive Key :=
  | Name (s : string)
  | Index (n : N).

(** [ResponsePath = { prev : ResponsePath | undefined, key }]. *)
#[local] Unset Elimination Schemes.
Inductive ResponsePath :=
  | Path (prev : option ResponsePath) (key : Key).
#[local] Set Elimination Schemes.

Definition prev (p : ResponsePath) : option ResponsePath :=
  match p with Path pr _ => pr end.

Definition key (p : ResponsePath) : Key :=
  match p with Path _ k => k end.

#[global] Instance Key_eq_dec : EqDecision Key.
Proof. solve_decision. Defined.

(** The [while (curr)] loop of [responsePathAsArray]: the keys pushed from
    the leaf up to the first segment. *)
Fixpoint flattened (curr : ResponsePath) : list Key :=
  match curr with
  | Path None k => [k]
  | Path (Some p) k => k :: flattened p
  end.

Definition responsePathAsArray (p : ResponsePath) : list Key :=
  reverse (flattened p).

(** [String(k)], as [join] applies it to each element. *)
Definition key_to_string (k : Key) : string :=
  match k with
  | Name s => s
  | Index n => pretty n
  end.

(** [Array.prototype.join] on already stringified elements. *)
Fixpoint join (sep : string) (l : list string) : string :=
  match l with
  | [] => ""
  | [x] => x
  | x :: xs => x +:+ sep +:+ join sep xs
  end.

Definition responsePathAsString (p : option ResponsePath) : string :=
  match p with
  | None => ""
  | Some p => join "." (key_to_string <$> responsePathAsArray p)
  end.

Definition is_digit (c : ascii) : bool :=
  bool_decide (48 ≤ nat_of_ascii c ≤ 57)%nat.

Fixpoint all_digits (s : string) : bool :=
  match s with
  | EmptyString => true
  | String c s' => is_digit c && all_digits s'
  end.

Fixpoint has_dot (s : string) : bool :=
  match s with
  | EmptyString => false
  | String c s' => bool_decide (c = "."%char) || has_dot s'
  end.

(** A field name that cannot be taken for an index or for the root: it has
    a character that is not a digit (so it is not empty), and no ['.'].
    The names of the GraphQL grammar are of this kind. *)
Definition name_ok (s : string) : bool :=
  negb (all_digits s) && negb (has_dot s).

Definition key_ok (k : Key) : bool :=
  match k with
  | Name s => name_ok s
  | Index _ => true
  end.

Definition path_ok (p : ResponsePath) : bool :=
  forallb key_ok (flattened p).

Definition opath_ok (p : option ResponsePath) : bool :=
  match p with None => true | Some p => path_ok p end.

(** Field names are only required to be free of ['.']. *)
Definition key_dotfree (k : Key) : bool :=
  match k with
  | Name s => negb (has_dot s)
  | Index _ => true
  end.

Definition path_dotfree (p : ResponsePath) : bool :=
  forallb key_dotfree (flattened p).

Definition path_field_2_subfield : ResponsePath :=
  Path (Some (Path (Some (Path None (Name "field"))) (Index 2))) (Name "subfield").

(** Induction on the linked list of a path. *)
Fixpoint path_ind (P : ResponsePath → Prop)
    (Hroot : ∀ k, P (Path None k))
    (Hstep : ∀ p k, P p → P (Path (Some p) k))
    (p : ResponsePath) : P p :=
  match p with
  | Path None k => Hroot k
  | Path (Some q) k => Hstep q k (path_ind P Hroot Hstep q)
  end.

End PathKey.

Import PathKey.


(** ** Trace tree builder *)

Module TreeBuilder.

(** Modelled from the spec: [Trace.Error] of the protobuf package, whose
    declaration is not among the sources: a message, the (line, column)
    locations, and the JSON text of the error. *)
Record TraceError := {
  te_message : string;
  te_location : list (N * N);
  te_json : string
}.

(** Modelled from the spec: [Trace.Node] of the protobuf package, whose
    declaration is not among the sources. The identifying key is [fieldName]
    or [index]; [child] holds references to other nodes, which are indices
    into the store of nodes. *)
Record Node := {
  fieldName : option string;
  index : option N;
  type : string;
  parentType : string;
  startTime : N;
  endTime : N;
  child : list nat;
  error : list TraceError
}.

(** [new Trace.Node()]. *)
Definition new_Node : Node :=
  {| fieldName := None; index := None; type := ""; parentType := "";
     startTime := 0; endTime := 0; child := []; error := [] |}.

(** [if (typeof id === 'number') node.index = id; else node.fieldName = id]. *)
Definition set_id (id : Key) (n : Node) : Node :=
  match id with
  | Index i =>
      {| fieldName := fieldName n; index := Some i; type := type n;
         parentType := parentType n; startTime := startTime n;
         endTime := endTime n; child := child n; error := error n |}
  | Name s =>
      {| fieldName := Some s; index := index n; type := type n;
         parentType := parentType n; startTime := startTime n;
         endTime := endTime n; child := child n; error := error n |}
  end.

Definition push_child_node (c : nat) (n : Node) : Node :=
  {| fieldName := fieldName n; index := index n; type := type n;
     parentType := parentType n; startTime := startTime n;
     endTime := endTime n; child := child n ++ [c]; error := error n |}.

Definition push_error_node (e : TraceError) (n : Node) : Node :=
  {| fieldName := fieldName n; index := index n; type := type n;
     parentType := parentType n; startTime := startTime n;
     endTime := endTime n; child := child n; error := error n ++ [e] |}.

Definition stamp_start (rt pt : string) (t : N) (n : Node) : Node :=
  {| fieldName := fieldName n; index := index n; type := rt;
     parentType := pt; startTime := t;
     endTime := endTime n; child := child n; error := error n |}.

Definition stamp_end (t : N) (n : Node) : Node :=
  {| fieldName := fieldName n; index := index n; type := type n;
     parentType := parentType n; startTime := startTime n;
     endTime := t; child := child n; error := error n |}.

(** The part of the extension object the tree builder works on: the store of
    allocated [Trace.Node] objects (a reference is the allocation index) and
    [this.nodes], the [Map] from path key to node. [this.trace.root] is the
    node allocated first. *)
Record State := {
  heap : list Node;
  nodes : gmap string nat
}.

(** The reference held by [this.trace.root]: the node allocated first. *)
Abbreviation root := (0%nat) (only parsing).

(** The constructor: [const root = new Trace.Node(); this.trace.root = root;
    this.nodes.set(responsePathAsString(undefined), root)]. *)
Definition constructor : State :=
  {| heap := [new_Node];
     nodes := <[responsePathAsString None := root]> ∅ |}.

Definition alloc (n : Node) (σ : State) : State * nat :=
  ({| heap := heap σ ++ [n]; nodes := nodes σ |}, length (heap σ)).

Definition nodes_set (k : string) (r : nat) (σ : State) : State :=
  {| heap := heap σ; nodes := <[k := r]> (nodes σ) |}.

Definition update_node (f : Node → Node) (r : nat) (σ : State) : State :=
  {| heap := alter f r (heap σ); nodes := nodes σ |}.

(** [newNode], with the body of [ensureParentNode] in place of its call:
    the two methods call each other, and the recursion is on [path.prev].
    [None] is the [TypeError] of [path.prev!.key] on an undefined [prev]. *)
Fixpoint newNode (path : ResponsePath) (σ : State) : option (State * nat) :=
  let '(σ1, node) := alloc (set_id (key path) new_Node) σ in
  let σ2 := nodes_set (responsePathAsString (Some path)) node σ1 in
  match
    match nodes σ2 !! responsePathAsString (prev path) with
    | Some parentNode => Some (σ2, parentNode)
    | None =>
        match prev path with
        | Some pp => newNode pp σ2
        | None => None
        end
    end
  with
  | Some (σ3, parentNode) => Some (update_node (push_child_node node) parentNode σ3, node)
  | None => None
  end.

Definition ensureParentNode (path : ResponsePath) (σ : State) : option (State * nat) :=
  match nodes σ !! responsePathAsString (prev path) with
  | Some parentNode => Some (σ, parentNode)
  | None =>
      match prev path with
      | Some pp => newNode pp σ
      | None => None
      end
  end.

(** The fields of [info] that [willResolveField] reads. *)
Record ResolveInfo := {
  path : ResponsePath;
  returnType : string;
  info_parentType : string
}.

(** [now] is [durationHrTimeToNanos(process.hrtime(this.startHrTime))] at
    the call. The result is the state and the node the callback closes
    over. *)
Definition willResolveField (info : ResolveInfo) (now : N) (σ : State)
    : option (State * nat) :=
  match newNode (path info) σ with
  | Some (σ1, node) =>
      Some (update_node (stamp_start (returnType info) (info_parentType info) now) node σ1,
            node)
  | None => None
  end.

(** The callback [willResolveField] returns, for the node it closed over. *)
Definition didResolveField (node : nat) (now : N) (σ : State) : State :=
  update_node (stamp_end now) node σ.

(** A sequence of field-resolve start events. *)
Fixpoint run (evs : list (ResolveInfo * N)) (σ : State) : option State :=
  match evs with
  | [] => Some σ
  | (info, now) :: evs' =>
      match willResolveField info now σ with
      | Some (σ1, _) => run evs' σ1
      | None => None
      end
  end.

(** The first segment of a path, the one below the root. *)
Fixpoint first_segment (p : ResponsePath) : Key :=
  match p with
  | Path None k => k
  | Path (Some q) _ => first_segment q
  end.

(** The path does not start with the empty field name. *)
Definition starts_named (p : ResponsePath) : bool :=
  negb (String.eqb (key_to_string (first_segment p)) "").

(** The segment a node stands for, as [join] prints it. *)
Definition label (n : Node) : string :=
  match index n, fieldName n with
  | Some i, _ => pretty i
  | None, Some s => s
  | None, None => ""
  end.

(** The key of a child below a node keyed [k]. *)
Definition extend (k : string) (l : string) : string :=
  if decide (k = "") then l else k +:+ "." +:+ l.

Definition is_child (σ : State) (p i : nat) : Prop :=
  ∃ n, heap σ !! p = Some n ∧ i ∈ child n.

Inductive reach (σ : State) : nat → Prop :=
  | reach_root : reach σ root
  | reach_child p i : reach σ p → is_child σ p i → reach σ i.

(** The tree invariant, for a state in which the nodes [pending] are
    allocated and registered but not yet linked to their parent. [κ] gives
    each node the key of the path it was created for. *)
Record tree_inv (σ : State) (pending : nat → Prop) (κ : nat → string) : Prop := {
  inv_root : nodes σ !! "" = Some root;
  inv_heap : 0 < length (heap σ);
  inv_key_root : κ root = "";
  inv_nodes : ∀ k i, nodes σ !! k = Some i → i < length (heap σ) ∧ κ i = k;
  inv_pending : ∀ i, pending i → 0 < i < length (heap σ);
  inv_reach : ∀ i, i < length (heap σ) → ¬ pending i → reach σ i;
  inv_nodup : ∀ p n, heap σ !! p = Some n → NoDup (child n);
  inv_parent_unique : ∀ p p' i, is_child σ p i → is_child σ p' i → p = p';
  inv_parent_exists : ∀ i, 0 < i < length (heap σ) → ¬ pending i → ∃ p, is_child σ p i;
  inv_child : ∀ p i, is_child σ p i → 0 < i < length (heap σ) ∧ ¬ pending i;
  inv_key : ∀ p i n, is_child σ p i → heap σ !! i = Some n →
    κ i = extend (κ p) (label n)
}.

(** The tree a finished sequence of events leaves: connected, one parent per
    node, and each node below a node of its path's prefix. *)
Definition tree_ok (σ : State) : Prop :=
  nodes σ !! "" = Some root ∧
  (∀ i, i < length (heap σ) → reach σ i) ∧
  (∀ p n, heap σ !! p = Some n → NoDup (child n)) ∧
  (∀ i, 0 < i < length (heap σ) →
        ∃ p, is_child σ p i ∧ ∀ p', is_child σ p' i → p' = p) ∧
  (∀ p, ¬ is_child σ p root) ∧
  ∃ κ : nat → string,
    κ root = "" ∧
    (∀ k i, nodes σ !! k = Some i → κ i = k) ∧
    (∀ p i n, is_child σ p i → heap σ !! i = Some n → κ i = extend (κ p) (label n)).

(** Every node of [σ] is still there in [σ'], and stands for the same segment. *)
Definition labels_kept (σ σ' : State) : Prop :=
  ∀ i m, heap σ !! i = Some m → ∃ m', heap σ' !! i = Some m' ∧ label m' = label m.

(** The references [this.nodes] holds are to allocated nodes. *)
Definition registry_allocated (σ : State) : Prop :=
  ∀ k i, nodes σ !! k = Some i → i < length (heap σ).

End TreeBuilder.

Import TreeBuilder.

(** Sample paths and events used in examples. *)
Definition path_a : ResponsePath := Path None (Name "a").
Definition path_a_b : ResponsePath := Path (Some path_a) (Name "b").
Definition start_event (p : ResponsePath) : ResolveInfo * N :=
  ({| path := p; returnType := "String"; info_parentType := "Query" |}, 0%N).

(** ** Outcomes *)

(** The outcome of an expression that may raise. *)
Inductive Completion (A : Type) :=
  | Returns (a : A)
  | Throws.
Arguments Returns {A} a.
Arguments Throws {A}.

(** ** Error attachment and the rewrite hook *)

Module ErrorPipeline.

(** A reference to an object the extension passes on without looking into
    it: the array of AST nodes, the [Source], the array of positions, the
    wrapped [Error], the extensions. *)
Inductive Ref := ref (n : nat).

(** What the extension reads off a [GraphQLError] when it looks at it.
    [e_nodes] and [e_path] are its [nodes] and [path]; [None] is
    [undefined]. [locations] and [e_path] are the elements the two arrays
    hold at that moment. *)
Record GraphQLError := {
  message : string;
  locations : option (list (N * N));
  e_nodes : option Ref;
  source : option Ref;
  positions : option Ref;
  e_path : option (list Key);
  originalError : option Ref;
  extensions : option Ref
}.

(** [a || b] on values that are an object or [undefined]. *)
Definition or_else {A} (a b : option A) : option A :=
  match a with Some _ => a | None => b end.

Section attach.

(** [JSON.stringify] on the error, as the objects are at the call. *)
Variable JSON_stringify_error : GraphQLError → string.

(** [addError(error)]; [None] is the [TypeError] of [node!.error] when no
    node is registered under the empty key. *)
Definition addError (error : GraphQLError) (σ : State) : option State :=
  let node := nodes σ !! "" in
  let node :=
    match e_path error with
    | Some p =>
        match nodes σ !! join "." (key_to_string <$> p) with
        | Some specificNode => Some specificNode
        | None => node
        end
    | None => node
    end in
  match node with
  | Some r =>
      Some (update_node
              (push_error_node
                 {| te_message := message error;
                    te_location := default [] (locations error);
                    te_json := JSON_stringify_error error |}) r σ)
  | None => None
  end.

End attach.

(** A [GraphQLError] object: its properties hold a string or a reference.
    The [path] and the [locations] are arrays of their own, which several
    errors may refer to; [o_path] and [o_locations] are indices into the
    stores of these arrays. *)
Record ErrorObject := {
  o_message : string;
  o_locations : option nat;
  o_nodes : option Ref;
  o_source : option Ref;
  o_positions : option Ref;
  o_path : option nat;
  o_originalError : option Ref;
  o_extensions : option Ref
}.

(** The objects the error pipeline and the hook work on: the error objects
    (a reference is the allocation index), the path arrays, the locations
    arrays, and in [world] all the other objects, those behind a [Ref]. *)
Record Heap (World : Type) := {
  objects : list ErrorObject;
  paths : list (list Key);
  locs : list (list (N * N));
  world : World
}.
Arguments Build_Heap {World} _ _ _ _.
Arguments objects {World} _.
Arguments paths {World} _.
Arguments locs {World} _.
Arguments world {World} _.

(** Modelled from the spec: the contract of [options.rewriteError], whose
    type is declared with [EngineReportingOptions], not among the sources.
    These are the ways the call of the function can end: it returns [null],
    a value that is not an instance of [GraphQLError] ([undefined], a
    string, a plain object), a [GraphQLError] (the clone it was handed, or
    any other), or it raises. *)
Inductive HookResult :=
  | ReturnsNull
  | ReturnsNotGraphQLError
  | ReturnsGraphQLError (rewrittenError : nat)
  | Raises.

(** The hook is code of the user. It is handed a reference to the clone,
    and may read and write whatever it reaches from there, and allocate: it
    maps the heap at the call to the heap it leaves and to its result. *)
Definition Hook (World : Type) : Type :=
  nat → Heap World → Heap World * HookResult.

Section graphql.

Context {World : Type}.

(** Provided by the [graphql] package and by the engine: how the
    [GraphQLError] constructor derives [locations] from its [nodes], [source]
    and [positions] arguments; which own properties of an error are
    enumerable, and so copied by [Object.assign]; [JSON.stringify] on the
    error object behind a reference. *)
Variable locations_of :
  Heap World → option Ref → option Ref → option Ref → option (list (N * N)).
Variable own_enumerable : ErrorObject → ErrorObject.
Variable JSON_stringify_error : Heap World → nat → string.

(** The error object as the extension reads it in the heap [h]. *)
Definition view (h : Heap World) (o : ErrorObject) : GraphQLError :=
  {| message := o_message o;
     locations := o_locations o ≫= λ r, locs h !! r;
     e_nodes := o_nodes o;
     source := o_source o;
     positions := o_positions o;
     e_path := o_path o ≫= λ r, paths h !! r;
     originalError := o_originalError o;
     extensions := o_extensions o |}.

Definition alloc_object (o : ErrorObject) (h : Heap World) : Heap World :=
  {| objects := objects h ++ [o]; paths := paths h; locs := locs h;
     world := world h |}.

Definition alloc_locs (l : list (N * N)) (h : Heap World) : Heap World :=
  {| objects := objects h; paths := paths h; locs := locs h ++ [l];
     world := world h |}.

(** [new GraphQLError(message, nodes, source, positions, path, originalError,
    extensions)], on arguments taken from a [GraphQLError]: the constructor
    stores them as they are, the path array by reference, and makes the
    array of locations. The result is the heap and the new object. *)
Definition new_GraphQLError (msg : string) (nds : option Ref)
    (src : option Ref) (pos : option Ref) (pth : option nat)
    (orig : option Ref) (ext : option Ref) (h : Heap World)
    : Heap World * nat :=
  let '(h1, locations) :=
    match locations_of h nds src pos with
    | Some l => (alloc_locs l h, Some (length (locs h)))
    | None => (h, None)
    end in
  (alloc_object
     {| o_message := msg; o_locations := locations; o_nodes := nds;
        o_source := src; o_positions := pos; o_path := pth;
        o_originalError := orig; o_extensions := ext |} h1,
   length (objects h)).

(** [Object.assign(Object.create(Object.getPrototypeOf(err)), err)]: a new
    object with the enumerable properties of [err], which hold what those of
    [err] hold, the same references. *)
Definition clone (err : ErrorObject) : ErrorObject := own_enumerable err.

(** [rewriteError(err)]. The result is the heap after the call and the
    reference returned, [None] for [null], or [Throws] when the hook raised.
    The outer [None] is a reference to no object. *)
Definition rewriteError (hook : option (Hook World)) (err : nat)
    (h : Heap World) : option (Heap World * Completion (option nat)) :=
  match hook with
  | Some rewrite =>
      match objects h !! err with
      | None => None
      | Some e =>
          let clonedError := length (objects h) in
          let h1 := alloc_object (clone e) h in
          let '(h2, rewrittenError) := rewrite clonedError h1 in
          match rewrittenError with
          | Raises => Some (h2, Throws)
          | ReturnsNull => Some (h2, Returns None)
          | ReturnsNotGraphQLError => Some (h2, Returns (Some err))
          | ReturnsGraphQLError rewrittenError =>
              match objects h2 !! rewrittenError, objects h2 !! err with
              | Some r, Some e' =>
                  let '(h3, new) :=
                    new_GraphQLError (o_message r) (o_nodes e') (o_source e')
                      (o_positions e') (o_path e') (o_originalError e')
                      (or_else (o_extensions r) (o_extensions e')) h2 in
                  Some (h3, Returns (Some new))
              | _, _ => None
              end
          end
      end
  | None => Some (h, Returns (Some err))
  end.

(** [didEncounterErrors(errors)]: the [forEach] over the references, which
    ends where the hook raises. [addError] reads the error as it is in the
    heap then. *)
Fixpoint didEncounterErrors (hook : option (Hook World)) (errors : list nat)
    (σ : State) (h : Heap World)
    : option (State * Heap World * Completion ()) :=
  match errors with
  | [] => Some (σ, h, Returns ())
  | err :: errors' =>
      match rewriteError hook err h with
      | None => None
      | Some (h1, Throws) => Some (σ, h1, Throws)
      | Some (h1, Returns None) => didEncounterErrors hook errors' σ h1
      | Some (h1, Returns (Some errorForReporting)) =>
          match objects h1 !! errorForReporting with
          | None => None
          | Some e =>
              match addError (λ _, JSON_stringify_error h1 errorForReporting)
                             (view h1 e) σ with
              | Some σ1 => didEncounterErrors hook errors' σ1 h1
              | None => None
              end
          end
      end
  end.

End graphql.

(** An error with the message ["boom"], as the extension reads it, and the
    hook that buries every error. *)
Definition boom : GraphQLError :=
  {| message := "boom"; locations := None; e_nodes := None; source := None;
     positions := None; e_path := None; originalError := None;
     extensions := None |}.

Definition bury {World} : Hook World := λ _ h, (h, ReturnsNull).

End ErrorPipeline.

Import ErrorPipeline.

(** ** Numbers *)

Module JSNumber.

(** The Numbers that hold an integer, each written as that integer. *)

(** The Number nearest to the integer [z]: [z] itself below [2^53], else
    [z] rounded to 53 significant bits, a tie going to the even one. A
    result of [2^1024] or more stands for [Infinity]. *)
Definition nearest (z : Z) : Z :=
  let a := Z.abs z in
  if (a <? 2 ^ 53)%Z then z
  else
    let ulp := (2 ^ (Z.log2 a - 52))%Z in
    let q := (a `div` ulp)%Z in
    let r := (a `mod` ulp)%Z in
    let q' :=
      if (2 * r <? ulp)%Z then q
      else if (ulp <? 2 * r)%Z then (q + 1)%Z
      else if Z.even q then q else (q + 1)%Z in
    (Z.sgn z * (q' * ulp))%Z.

Definition decimal_digits (a : Z) : Z := Z.of_nat (String.length (pretty a)).

(** The decimal with [k] significant digits, of the [n]-digit ones next to
    [x], that reads back as [x]; the nearer of two, the one of even last
    digit when they are as near. *)
Definition with_digits (x n k : Z) : option Z :=
  let m := (10 ^ (n - k))%Z in
  let lo := (x `div` m * m)%Z in
  let hi := (lo + m)%Z in
  match (nearest lo =? x)%Z, (nearest hi =? x)%Z with
  | true, true =>
      Some (if (x - lo <? hi - x)%Z then lo
            else if (hi - x <? x - lo)%Z then hi
            else if Z.even (x `div` m) then lo else hi)
  | true, false => Some lo
  | false, true => Some hi
  | false, false => None
  end.

Fixpoint shortest (x n k : Z) (fuel : nat) : Z :=
  match fuel with
  | O => x
  | S fuel' =>
      match with_digits x n k with
      | Some v => v
      | None => shortest x n (k + 1) fuel'
      end
  end.

Fixpoint strip_zeros (v : Z) (fuel : nat) : Z :=
  match fuel with
  | O => v
  | S fuel' => if (v `mod` 10 =? 0)%Z then strip_zeros (v `div` 10) fuel' else v
  end.

Definition exponent_form (v : Z) : string :=
  let e := (decimal_digits v - 1)%Z in
  match pretty (strip_zeros v (Z.to_nat e)) with
  | String d "" => String d ("e+" +:+ pretty e)
  | String d rest => String d ("." +:+ rest +:+ "e+" +:+ pretty e)
  | "" => ""
  end.

(** [Number::toString] on a finite Number that holds the integer [z]: the
    fewest digits that read back as the Number, in full below [10^21] and
    with an exponent from there on. *)
Definition Number_toString (z : Z) : string :=
  let x := Z.abs z in
  if (x =? 0)%Z then "0"
  else
    let n := decimal_digits x in
    let v := shortest x n 1 (Z.to_nat n) in
    (if (z <? 0)%Z then "-" else "")
    +:+ (if (v <? 10 ^ 21)%Z then pretty v else exponent_form v).

End JSNumber.
Import JSNumber.

(** ** Redaction of variables and headers *)

Module Redaction.

(** The values a variable can hold, as far as [JSON.stringify] tells them
    apart. [VNumber z] is the Number nearest to the integer [z], and [VNaN]
    is [NaN]; Numbers with a fraction are not among these values. [VBigInt]
    and [VCircular] (an object that refers back to itself) are the two kinds
    of value on which [JSON.stringify] raises a [TypeError]. [VFunction] is
    a function, such as the members of [Object.prototype]. *)
#[local] Unset Elimination Schemes.
Inductive Value :=
  | VUndefined
  | VNull
  | VBool (b : bool)
  | VNumber (z : Z)
  | VString (s : string)
  | VArray (l : list Value)
  | VObject (l : list (string * Value))
  | VBigInt (z : Z)
  | VCircular
  | VNaN
  | VFunction.
#[local] Set Elimination Schemes.

(** [try { body } catch (e) { handler }]. *)
Definition try_catch {A} (body handler : Completion A) : Completion A :=
  match body with
  | Returns a => Returns a
  | Throws => handler
  end.

Definition dquote : ascii := "034"%char.
Definition backslash : ascii := "092"%char.

Definition hex_digit (n : nat) : ascii :=
  match n with
  | 0 => "0" | 1 => "1" | 2 => "2" | 3 => "3" | 4 => "4" | 5 => "5"
  | 6 => "6" | 7 => "7" | 8 => "8" | 9 => "9" | 10 => "a" | 11 => "b"
  | 12 => "c" | 13 => "d" | 14 => "e" | _ => "f"
  end%char.

(** The escape [JSON.stringify] writes for one character of a string. *)
Definition escape_char (c : ascii) : string :=
  let n := nat_of_ascii c in
  if decide (c = dquote) then String backslash (String dquote "")
  else if decide (c = backslash) then String backslash (String backslash "")
  else if decide (n = 8) then String backslash "b"
  else if decide (n = 9) then String backslash "t"
  else if decide (n = 10) then String backslash "n"
  else if decide (n = 12) then String backslash "f"
  else if decide (n = 13) then String backslash "r"
  else if decide (n < 32) then
    String backslash ("u00" +:+ String (hex_digit (n / 16)) (String (hex_digit (n mod 16)) ""))
  else String c "".

Fixpoint escape (s : string) : string :=
  match s with
  | EmptyString => ""
  | String c s' => escape_char c +:+ escape s'
  end.

Definition quote (s : string) : string :=
  String dquote (escape s +:+ String dquote "").

(** [JSON.stringify(v)]. [Returns None] is the result [undefined], which
    the values [undefined] and a function have. In an array such an element
    is written [null]; in an object such a property is left out. *)
Fixpoint JSON_stringify (v : Value) : Completion (option string) :=
  match v with
  | VUndefined | VFunction => Returns None
  | VNull | VNaN => Returns (Some "null")
  | VBool b => Returns (Some (if b then "true" else "false"))
  | VNumber z =>
      Returns (Some (if (Z.abs (nearest z) <? 2 ^ 1024)%Z
                     then Number_toString (nearest z) else "null"))
  | VString s => Returns (Some (quote s))
  | VArray l =>
      let elements :=
        (fix elements (l : list Value) : Completion (list string) :=
           match l with
           | [] => Returns []
           | x :: l' =>
               match JSON_stringify x with
               | Throws => Throws
               | Returns o =>
                   match elements l' with
                   | Throws => Throws
                   | Returns r => Returns (default "null" o :: r)
                   end
               end
           end) in
      match elements l with
      | Throws => Throws
      | Returns parts => Returns (Some ("[" +:+ join "," parts +:+ "]"))
      end
  | VObject l =>
      let properties :=
        (fix properties (l : list (string * Value)) : Completion (list string) :=
           match l with
           | [] => Returns []
           | (k, x) :: l' =>
               match JSON_stringify x with
               | Throws => Throws
               | Returns o =>
                   match properties l' with
                   | Throws => Throws
                   | Returns r =>
                       Returns (match o with
                                | Some s => (quote k +:+ ":" +:+ s) :: r
                                | None => r
                                end)
                   end
               end
           end) in
      match properties l with
      | Throws => Throws
      | Returns parts => Returns (Some ("{" +:+ join "," parts +:+ "}"))
      end
  | VBigInt _ | VCircular => Throws
  end.

(** [v == null]. *)
Definition is_nullish (v : Value) : bool :=
  match v with
  | VUndefined | VNull => true
  | _ => false
  end.

(** A plain JS object (made by an object literal, by [JSON.parse], by a
    spread) is given by its own enumerable properties; one may hold
    [undefined]. Its prototype is [Object.prototype], whose members are
    functions, but for the accessor [__proto__]. *)
Definition Object_prototype : list string :=
  ["constructor"; "__defineGetter__"; "__defineSetter__"; "hasOwnProperty";
   "__lookupGetter__"; "__lookupSetter__"; "isPrototypeOf";
   "propertyIsEnumerable"; "toString"; "valueOf"; "toLocaleString"].

(** The read [o[name]]: the own property, or else what the prototype has
    under the name. The getter [__proto__] gives [Object.prototype] itself,
    an object without enumerable properties. *)
Definition object_get (o : gmap string Value) (name : string) : Value :=
  match o !! name with
  | Some v => v
  | None =>
      if bool_decide (name ∈ Object_prototype) then VFunction
      else if bool_decide (name = "__proto__") then VObject []
      else VUndefined
  end.

(** The assignment [o[name] = v] on an object made by [{}]. Under the name
    [__proto__] it calls the setter of [Object.prototype], which replaces
    the prototype of [o] when [v] is an object or [null] and does nothing
    otherwise: no own property is made. The three objects assigned to in
    this way ([cleanedVariables], [variablesJson], [requestHeaders]) are read
    through their own properties only. [cleanedVariables] is assigned to
    once under each name, [variablesJson] is assigned texts and [undefined],
    and the prototype the setter gives [requestHeaders] is a
    [Trace.HTTP.Values], which still ends in [Object.prototype]; so their
    own properties are all that is kept of them. *)
Definition object_set {A} (name : string) (v : A) (o : gmap string A)
    : gmap string A :=
  if bool_decide (name = "__proto__") then o else <[name := v]> o.

Definition Object_keys {A} (o : gmap string A) : list string :=
  (map_to_list o).*1.

(** Modelled from the spec: [VariableValueOptions], declared with the
    agent, not among the sources: one of a list of excepted names, the
    boolean [safelistAll], or a modifier function from the variables and the
    operation string to the variables to record. The modifier is code of the
    user: it returns a plain object, as its type says, or it raises. *)
Inductive VariableValueOptions :=
  | ExceptVariableNames (exceptVariableNames : list string)
  | SafelistAll (safelistAll : bool)
  | ValueModifier
      (valueModifier :
         gmap string Value → option string → Completion (gmap string Value)).

(** Modelled from the spec: [Trace.Details] of the protobuf package, of
    which only [variablesJson] is filled in: an object made by [{}], with a
    property for a variable name. The property holds a text, or [undefined]
    ([None]) when that is what was assigned. *)
Record Details := {
  variablesJson : gmap string (option string)
}.

Definition new_Details : Details := {| variablesJson := ∅ |}.

(** [details.variablesJson[name] = s]. *)
Definition set_variablesJson (name : string) (s : option string) (d : Details)
    : Details :=
  {| variablesJson := object_set name s (variablesJson d) |}.

Definition cleanModifiedVariables (originalKeys : list string)
    (modifiedVariables : gmap string Value) : gmap string Value :=
  foldl (λ cleanedVariables name,
           object_set name (object_get modifiedVariables name) cleanedVariables)
        ∅ originalKeys.

(** The function that [makeTraceDetails] calls at once for
    [variablesToRecord]. The modifier is called outside any [try]. *)
Definition variablesToRecord (variables : gmap string Value)
    (sendVariableValues : option VariableValueOptions)
    (operationString : option string) : Completion (gmap string Value) :=
  match sendVariableValues with
  | Some (ValueModifier valueModifier) =>
      let originalKeys := Object_keys variables in
      match valueModifier variables operationString with
      | Returns modifiedVariables =>
          Returns (cleanModifiedVariables originalKeys modifiedVariables)
      | Throws => Throws
      end
  | _ => Returns variables
  end.

(** The condition under which a variable is recorded as the empty string
    without looking at its value. *)
Definition redacts (sendVariableValues : option VariableValueOptions)
    (name : string) : bool :=
  match sendVariableValues with
  | None => true
  | Some (SafelistAll safelistAll) => negb safelistAll
  | Some (ExceptVariableNames exceptVariableNames) =>
      bool_decide (name ∈ exceptVariableNames)
  | Some (ValueModifier _) => false
  end.

Definition unable_to_convert : string := "[Unable to convert value to JSON]".

(** The assignment [details.variablesJson[name] = r] of the outcome of an
    expression: nothing is assigned when the expression raises. *)
Definition assign_json (name : string) (r : Completion (option string))
    (d : Details) : Completion Details :=
  match r with
  | Returns s => Returns (set_variablesJson name s d)
  | Throws => Throws
  end.

(** The body of the [forEach] of [makeTraceDetails]. *)
Definition record_variable (sendVariableValues : option VariableValueOptions)
    (variablesToRecord : gmap string Value) (name : string) (details : Details)
    : Completion Details :=
  if redacts sendVariableValues name then
    Returns (set_variablesJson name (Some "") details)
  else
    try_catch
      (assign_json name
         (if is_nullish (object_get variablesToRecord name)
          then Returns (Some "")
          else JSON_stringify (object_get variablesToRecord name))
         details)
      (assign_json name (JSON_stringify (VString unable_to_convert)) details).

Fixpoint forEach {A S} (f : A → S → Completion S) (l : list A) (s : S)
    : Completion S :=
  match l with
  | [] => Returns s
  | x :: l' =>
      match f x s with
      | Returns s' => forEach f l' s'
      | Throws => Throws
      end
  end.

Definition makeTraceDetails (variables : gmap string Value)
    (sendVariableValues : option VariableValueOptions)
    (operationString : option string) : Completion Details :=
  let details := new_Details in
  match variablesToRecord variables sendVariableValues operationString with
  | Returns variablesToRecord =>
      forEach (record_variable sendVariableValues variablesToRecord)
              (Object_keys variablesToRecord) details
  | Throws => Throws
  end.

(** [Array<String> | boolean], the type of the deprecated options. *)
Inductive PrivateOption :=
  | PrivateNames (names : list string)
  | PrivateFlag (b : bool).

Definition makeTraceDetailsLegacy (variables : gmap string Value)
    (privateVariables : PrivateOption) : Completion Details :=
  let newArguments :=
    match privateVariables with
    | PrivateNames names => ExceptVariableNames names
    | PrivateFlag b => SafelistAll (negb b)
    end in
  makeTraceDetails variables (Some newArguments) None.

(** What [makeTraceDetails] assigns for a variable holding [v]; [None] is
    [undefined]. *)
Definition recorded_value (sendVariableValues : option VariableValueOptions)
    (name : string) (v : Value) : option string :=
  if redacts sendVariableValues name then Some ""
  else if is_nullish v then Some ""
  else match JSON_stringify v with
       | Returns r => r
       | Throws => Some (quote unable_to_convert)
       end.

(** *** Headers *)

Definition lower_char (c : ascii) : ascii :=
  let n := nat_of_ascii c in
  if decide (65 ≤ n ≤ 90)%nat then ascii_of_nat (n + 32) else c.

(** [toLowerCase], on the ASCII names headers have. *)
Fixpoint toLowerCase (s : string) : string :=
  match s with
  | EmptyString => ""
  | String c s' => String (lower_char c) (toLowerCase s')
  end.

(** [{ except: Array<String> } | { safelistAll: boolean }]. *)
Inductive SendHeaders :=
  | Except (except : list string)
  | HeadersSafelistAll (safelistAll : bool).

(** Modelled from the spec: the members of the enum [Trace.HTTP.Method] of
    the protobuf package, in the order of their numbers, from 0 on. *)
Definition Method_names : list string :=
  ["UNKNOWN"; "OPTIONS"; "GET"; "HEAD"; "POST"; "PUT"; "DELETE"; "TRACE";
   "CONNECT"; "PATCH"].

(** What the expression [Trace.HTTP.Method[m] || Trace.HTTP.Method.UNKNOWN]
    can give. The enum object has the numbers under the member names; its
    prototype is the table of the names under the numbers, and the prototype
    of that is [Object.prototype]. *)
Inductive MethodValue :=
  | MethodNumber (n : nat)
  | MethodName (s : string)
  | MethodInherited (name : string).

(** Modelled from the spec: [Trace.HTTP] of the protobuf package: the
    method and the request headers, an object made by [{}] with the values
    of a [Trace.HTTP.Values] under a header name. *)
Record HTTP := {
  method : MethodValue;
  requestHeaders : gmap string (list string)
}.

Definition new_HTTP (m : MethodValue) : HTTP :=
  {| method := m; requestHeaders := ∅ |}.

(** The body of the loop over the entries of [headers]. *)
Definition record_header (sendHeaders : SendHeaders) (http : HTTP)
    (entry : string * string) : HTTP :=
  let '(key, value) := entry in
  if match sendHeaders with
     | Except except =>
         existsb (λ exceptHeader,
                    bool_decide (toLowerCase exceptHeader = toLowerCase key))
                 except
     | HeadersSafelistAll _ => false
     end
  then http
  else if bool_decide (key = "authorization") then http
  else if bool_decide (key = "cookie") then http
  else if bool_decide (key = "set-cookie") then http
  else {| method := method http;
          requestHeaders := object_set key [value] (requestHeaders http) |}.

(** [makeHTTPRequestHeaders]; [headers] is the sequence of entries the
    iteration of the [Headers] object yields. The result is [http] after
    the call. *)
Definition makeHTTPRequestHeaders (http : HTTP) (headers : list (string * string))
    (sendHeaders : option SendHeaders) : HTTP :=
  match sendHeaders with
  | None => http
  | Some (HeadersSafelistAll false) => http
  | Some sendHeaders => foldl (record_header sendHeaders) http headers
  end.

Definition makeHTTPRequestHeadersLegacy (http : HTTP)
    (headers : list (string * string)) (privateHeaders : PrivateOption) : HTTP :=
  let sendHeaders :=
    match privateHeaders with
    | PrivateNames names => Except names
    | PrivateFlag b => HeadersSafelistAll (negb b)
    end in
  makeHTTPRequestHeaders http headers (Some sendHeaders).

Definition sensitive : list string := ["authorization"; "cookie"; "set-cookie"].

(** The header names the loop passes over without recording them. *)
Definition withheld (sendHeaders : SendHeaders) (key : string) : bool :=
  match sendHeaders with
  | Except except =>
      existsb (λ exceptHeader,
                 bool_decide (toLowerCase exceptHeader = toLowerCase key)) except
  | HeadersSafelistAll _ => false
  end
  || bool_decide (key ∈ sensitive).

(** The variables [{a: 1, b: "x"}] and a modifier that drops [a] and
    adds [z]. *)
Definition variables_a_b : gmap string Value :=
  <["a" := VNumber 1]> (<["b" := VString "x"]> ∅).

Definition drop_a_add_z (variables : gmap string Value) (_ : option string)
    : Completion (gmap string Value) :=
  Returns (<["z" := VNumber 3]> (delete "a" variables)).

End Redaction.

Import Redaction.

(** ** Request lifecycle *)

Module Lifecycle.

(** Modelled from the spec: [requestContext.metrics], whose type is
    declared in the request pipeline, not among the sources. [None] is a
    field that is not set. *)
Record Metrics := {
  persistedQueryHit : option bool;
  persistedQueryRegister : option bool;
  responseCacheHit : option bool;
  forbiddenOperation : option bool;
  registeredOperation : option bool
}.

(** [!!x], also the test of [if (x)], on a boolean that may be unset. *)
Definition truthy (x : option bool) : bool := default false x.

(** Modelled from the spec: the fields of [EngineReportingOptions] (declared
    with the agent, not among the sources) that [requestDidStart] reads;
    [None] is an option that is not given. *)
Record Options := {
  sendHeaders : option SendHeaders;
  privateHeaders : option PrivateOption;
  sendVariableValues : option VariableValueOptions;
  privateVariables : option PrivateOption
}.

Record Request := {
  request_method : string;
  request_headers : list (string * string)
}.

(** Modelled from the spec: [google.protobuf.Timestamp], whole seconds and
    the nanoseconds left. *)
Record Timestamp := {
  seconds : Z;
  nanos : Z
}.

(** Modelled from the spec: the fields of [Trace] (protobuf package) set at
    the start and at the end of a request. *)
Record Trace := {
  startTime : option Timestamp;
  endTime : option Timestamp;
  durationNs : Z;
  http : option HTTP;
  details : option Details;
  trace_persistedQueryHit : bool;
  trace_persistedQueryRegister : bool;
  fullQueryCacheHit : bool;
  trace_forbiddenOperation : bool;
  trace_registeredOperation : bool
}.

(** [new Trace()]. *)
Definition new_Trace : Trace :=
  {| startTime := None; endTime := None; durationNs := 0; http := None;
     details := None; trace_persistedQueryHit := false;
     trace_persistedQueryRegister := false; fullQueryCacheHit := false;
     trace_forbiddenOperation := false; trace_registeredOperation := false |}.

(** [dateToTimestamp], on the milliseconds of the date. *)
Definition dateToTimestamp (totalMillis : Z) : Timestamp :=
  let millis := (totalMillis `rem` 1000)%Z in
  {| seconds := ((totalMillis - millis) `quot` 1000)%Z;
     nanos := (millis * 1000000)%Z |}.

(** [hrtime[0] * 1e9 + hrtime[1]] on two Numbers that hold integers: the
    product and the sum are each the Number nearest to the exact result. *)
Definition durationHrTimeToNanos (hrtime : Z * Z) : Z :=
  nearest (nearest (hrtime.1 * 1000000000) + hrtime.2)%Z.

(** The position of [x] in [l]. *)
Fixpoint index_of (x : string) (l : list string) : option nat :=
  match l with
  | [] => None
  | y :: l' => if bool_decide (x = y) then Some 0 else S <$> index_of x l'
  end.

(** [Trace.HTTP.Method[m] || Trace.HTTP.Method.UNKNOWN]. The number 0 of
    [UNKNOWN] is falsy, as is [undefined]; a name of the table under the
    numbers, a member of [Object.prototype] and the prototype itself are
    not. *)
Definition http_method (m : string) : MethodValue :=
  match index_of m Method_names with
  | Some n => MethodNumber n
  | None =>
      match index_of m (pretty <$> seq 0 (length Method_names)) with
      | Some n => MethodName (default "" (Method_names !! n))
      | None =>
          if bool_decide (m ∈ Object_prototype) || bool_decide (m = "__proto__")
          then MethodInherited m
          else MethodNumber 0
      end
  end.

(** The part of [requestDidStart] that runs at once: [now] is the date in
    milliseconds, [metrics] is the state of [requestContext.metrics] at the
    call. *)
Definition requestDidStart (options : Options) (request : Request)
    (queryString : option string) (variables : option (gmap string Value))
    (metrics : Metrics) (now : Z) (trace : Trace) : Completion Trace :=
  let http0 := new_HTTP (http_method (request_method request)) in
  let headers_configured :=
    bool_decide (is_Some (sendHeaders options))
    || bool_decide (is_Some (privateHeaders options)) in
  let http1 :=
    if headers_configured then
      match sendHeaders options, privateHeaders options with
      | Some sh, _ =>
          makeHTTPRequestHeaders http0 (request_headers request) (Some sh)
      | None, Some ph =>
          makeHTTPRequestHeadersLegacy http0 (request_headers request) ph
      | None, None => http0
      end
    else http0 in
  let hit :=
    if headers_configured && truthy (persistedQueryHit metrics)
    then true else trace_persistedQueryHit trace in
  let register :=
    if headers_configured && truthy (persistedQueryRegister metrics)
    then true else trace_persistedQueryRegister trace in
  let details1 :=
    match variables with
    | Some variables =>
        match
          (* [sendVariableValues !== undefined || privateVariables == null] *)
          match sendVariableValues options, privateVariables options with
          | None, Some pv => makeTraceDetailsLegacy variables pv
          | svv, _ => makeTraceDetails variables svv queryString
          end
        with
        | Returns d => Returns (Some d)
        | Throws => Throws
        end
    | None => Returns (details trace)
    end in
  match details1 with
  | Returns d =>
      Returns
        {| startTime := Some (dateToTimestamp now); endTime := endTime trace;
           durationNs := durationNs trace; http := Some http1; details := d;
           trace_persistedQueryHit := hit;
           trace_persistedQueryRegister := register;
           fullQueryCacheHit := fullQueryCacheHit trace;
           trace_forbiddenOperation := trace_forbiddenOperation trace;
           trace_registeredOperation := trace_registeredOperation trace |}
  | Throws => Throws
  end.

(** The function [requestDidStart] returns, run at the end of the request:
    [elapsed] is [process.hrtime(this.startHrTime)], [metrics] is the state
    of [requestContext.metrics] by then. *)
Definition requestDidEnd (metrics : Metrics) (elapsed : Z * Z) (now : Z)
    (trace : Trace) : Trace :=
  {| startTime := startTime trace;
     endTime := Some (dateToTimestamp now);
     durationNs := durationHrTimeToNanos elapsed;
     http := http trace; details := details trace;
     trace_persistedQueryHit := trace_persistedQueryHit trace;
     trace_persistedQueryRegister := trace_persistedQueryRegister trace;
     fullQueryCacheHit := truthy (responseCacheHit metrics);
     trace_forbiddenOperation := truthy (forbiddenOperation metrics);
     trace_registeredOperation := truthy (registeredOperation metrics) |}.

(** No option given; a request served from the persisted query cache. *)
Definition no_options : Options :=
  {| sendHeaders := None; privateHeaders := None;
     sendVariableValues := None; privateVariables := None |}.

Definition post_request : Request :=
  {| request_method := "POST"; request_headers := [("accept", "*/*")] |}.

Definition persisted_hit : Metrics :=
  {| persistedQueryHit := Some true; persistedQueryRegister := None;
     responseCacheHit := None; forbiddenOperation := None;
     registeredOperation := None |}.

End Lifecycle.

Import Lifecycle.

(** ** Further notions for the tree builder *)

Module TreeFacts.

(** A node as [new Trace.Node()] leaves it, but for its identifying key:
    no type names, no times, no errors, no children. *)
Definition unstamped (n : Node) : Prop :=
  type n = "" ∧ parentType n = "" ∧ TreeBuilder.startTime n = 0%N ∧
  TreeBuilder.endTime n = 0%N ∧ error n = [] ∧ child n = [].

(** Two states of the same node object: every field is the same but for
    [child], which may have more entries at its end. *)
Definition node_grows (n n' : Node) : Prop :=
  fieldName n' = fieldName n ∧ index n' = index n ∧ type n' = type n ∧
  parentType n' = parentType n ∧
  TreeBuilder.startTime n' = TreeBuilder.startTime n ∧
  TreeBuilder.endTime n' = TreeBuilder.endTime n ∧
  error n' = error n ∧ child n `prefix_of` child n'.

(** Every node of [σ] is in [σ'] with the same fields and at least the same
    children. *)
Definition heap_grows (σ σ' : State) : Prop :=
  ∀ i n, heap σ !! i = Some n → ∃ n', heap σ' !! i = Some n' ∧ node_grows n n'.

(** A resolver event: the call of [willResolveField], or the call of the
    function it returned for the node [node]. *)
Inductive Event :=
  | Start (info : ResolveInfo) (now : N)
  | End (node : nat) (now : N).

Definition is_end_of (node : nat) (ev : Event) : bool :=
  match ev with
  | End j _ => bool_decide (j = node)
  | Start _ _ => false
  end.

Fixpoint run_events (evs : list Event) (σ : State) : option State :=
  match evs with
  | [] => Some σ
  | Start info now :: evs' =>
      match willResolveField info now σ with
      | Some (σ1, _) => run_events evs' σ1
      | None => None
      end
  | End node now :: evs' => run_events evs' (didResolveField node now σ)
  end.

(** Start events in the order of execution: the key of each path is new,
    and the key of its prefix has been registered ([seen] holds the keys
    registered so far). *)
Fixpoint in_execution_order (seen : list string) (evs : list (ResolveInfo * N))
    : bool :=
  match evs with
  | [] => true
  | (info, _) :: evs' =>
      let k := responsePathAsString (Some (path info)) in
      bool_decide (responsePathAsString (prev (path info)) ∈ seen)
      && bool_decide (k ∉ seen)
      && in_execution_order (k :: seen) evs'
  end.

(** The node of [p] is registered, and it is a child of the node registered
    for the prefix of [p]. *)
Definition linked (σ : State) (p : ResponsePath) : Prop :=
  ∃ i par,
    nodes σ !! responsePathAsString (Some p) = Some i ∧
    nodes σ !! responsePathAsString (prev p) = Some par ∧
    is_child σ par i.

(** The number of [Trace.Error] records in the tree. *)
Definition errors_recorded (σ : State) : nat :=
  sum_list ((λ n, length (error n)) <$> heap σ).

(** The node [addError] attaches an error with path [error_path] to. *)
Definition attach_node (error_path : option (list Key)) (σ : State) : option nat :=
  match error_path with
  | Some p =>
      match nodes σ !! join "." (key_to_string <$> p) with
      | Some specificNode => Some specificNode
      | None => nodes σ !! ""
      end
  | None => nodes σ !! ""
  end.

End TreeFacts.

Import TreeFacts.

(** ** Further notions for the error pipeline *)

Module ErrorFacts.

Section attach.

Variable JSON_stringify_error : GraphQLError → string.

(** The [Trace.Error] that [addError] makes of an error. *)
Definition trace_error (e : GraphQLError) : TraceError :=
  {| te_message := message e;
     te_location := default [] (locations e);
     te_json := JSON_stringify_error e |}.

End attach.

Section graphql.

Context {World : Type}.

Variable locations_of :
  Heap World → option Ref → option Ref → option Ref → option (list (N * N)).
Variable own_enumerable : ErrorObject → ErrorObject.

(** How many errors of the batch are reported, that is, [rewriteError]
    returns an error for them; the count ends where the hook raises. *)
Fixpoint count_reported (hook : option (Hook World)) (errors : list nat)
    (h : Heap World) : nat :=
  match errors with
  | [] => 0
  | err :: errors' =>
      match rewriteError locations_of own_enumerable hook err h with
      | Some (h1, Returns (Some _)) => S (count_reported hook errors' h1)
      | Some (h1, Returns None) => count_reported hook errors' h1
      | _ => 0
      end
  end.

End graphql.

(** What holds of every hook, as code that runs on the heap, when it is
    handed an object of the heap: the objects that are there stay there,
    changed or not, and a reference it returns is to an object of the
    heap. *)
Definition hook_sound {World} (rewrite : Hook World) : Prop :=
  ∀ c h,
    (c < length (objects h))%nat →
    (length (objects h) ≤ length (objects (rewrite c h).1))%nat ∧
    ∀ r, (rewrite c h).2 = ReturnsGraphQLError r →
         (r < length (objects (rewrite c h).1))%nat.

(** The call of the hook on the clone [c] in the heap [h] writes to no
    error object but the clone, and to none of the path and locations
    arrays. *)
Definition spares {World} (rewrite : Hook World) (c : nat) (h : Heap World)
    : Prop :=
  (∀ i o, i ≠ c → objects h !! i = Some o →
          objects (rewrite c h).1 !! i = Some o) ∧
  (∀ i l, paths h !! i = Some l → paths (rewrite c h).1 !! i = Some l) ∧
  (∀ i l, locs h !! i = Some l → locs (rewrite c h).1 !! i = Some l).

Definition set_message (msg : string) (o : ErrorObject) : ErrorObject :=
  {| o_message := msg; o_locations := o_locations o; o_nodes := o_nodes o;
     o_source := o_source o; o_positions := o_positions o;
     o_path := o_path o; o_originalError := o_originalError o;
     o_extensions := o_extensions o |}.

(** Two hooks. [mask] is [err => { err.message = msg; return err; }]: it
    assigns to a property of the clone. [push_path_and_bury] is
    [err => { err.path.push(k); return null; }]: it changes the path array
    in place. *)
Definition mask {World} (msg : string) : Hook World :=
  λ c h,
    ({| objects := alter (set_message msg) c (objects h); paths := paths h;
        locs := locs h; world := world h |},
     ReturnsGraphQLError c).

Definition push_path_and_bury {World} (k : Key) : Hook World :=
  λ c h,
    (match objects h !! c ≫= o_path with
     | Some p =>
         {| objects := objects h; paths := alter (λ l, l ++ [k]) p (paths h);
            locs := locs h; world := world h |}
     | None => h
     end,
     ReturnsNull).

(** An error with the message ["boom"] raised at the path [p]. *)
Definition boom_at (p : list Key) : GraphQLError :=
  {| message := "boom"; locations := None; e_nodes := None; source := None;
     positions := None; e_path := Some p; originalError := None;
     extensions := None |}.

(** The heap with one error object, of message ["boom"] and with the path
    array [p]. *)
Definition boom_object : ErrorObject :=
  {| o_message := "boom"; o_locations := None; o_nodes := None;
     o_source := None; o_positions := None; o_path := Some 0;
     o_originalError := None; o_extensions := None |}.

Definition boom_heap (p : list Key) : Heap () :=
  {| objects := [boom_object]; paths := [p]; locs := []; world := () |}.

End ErrorFacts.

Import ErrorFacts.

(** ** Further notions for redaction *)

Module RedactionFacts.

(** The value the iteration of [headers] yields last for the name [name]. *)
Definition header_value (headers : list (string * string)) (name : string)
    : option string :=
  foldl (λ acc entry, if decide (entry.1 = name) then Some entry.2 else acc)
        None headers.

End RedactionFacts.

Import RedactionFacts.

(** ** Hand-off and client identity *)

Module Handoff.

(** The private fields of the extension that [requestDidStart] and
    [executionDidStart] set and the end handler reads; [None] is
    [undefined]. The document is a reference to the parsed query. *)
Record Extension := {
  explicitOperationName : option string;
  queryString : option string;
  documentAST : option Ref
}.

Definition new_Extension : Extension :=
  {| explicitOperationName := None; queryString := None; documentAST := None |}.

(** The test [if (s)] on a string that may be [null] or [undefined]. *)
Definition string_truthy (s : option string) : bool :=
  match s with
  | Some s => negb (String.eqb s "")
  | None => false
  end.

(** [a || b] on such strings. *)
Definition or_string (a b : option string) : option string :=
  if string_truthy a then a else b.

(** [this.queryString = o.queryString; this.documentAST = o.parsedQuery]
    in [requestDidStart]. *)
Definition requestDidStart_fields (queryString : option string)
    (parsedQuery : option Ref) (ext : Extension) : Extension :=
  {| explicitOperationName := explicitOperationName ext;
     queryString := queryString;
     documentAST := parsedQuery |}.

(** [executionDidStart(o)], on [o.executionArgs.operationName] and
    [o.executionArgs.document]. *)
Definition executionDidStart (operationName : option string) (document : Ref)
    (ext : Extension) : Extension :=
  {| explicitOperationName :=
       if string_truthy operationName then operationName
       else explicitOperationName ext;
     queryString := queryString ext;
     documentAST := Some document |}.

(** Modelled from the spec: [AddTraceArgs], declared with the agent, not
    among the sources: what the extension hands to [addTrace]. *)
Record AddTraceArgs := {
  args_operationName : string;
  args_queryHash : string;
  args_documentAST : option Ref;
  args_queryString : string;
  args_trace : Trace
}.

(** The end handler that [requestDidStart] returns: the argument of its
    call of [addTrace]. [ctx_operationName] and [ctx_document] are
    [requestContext.operationName] and [requestContext.document] by then. *)
Definition end_handler (ext : Extension) (queryHash : string)
    (ctx_operationName : option string) (ctx_document : option Ref)
    (metrics : Metrics) (elapsed : Z * Z) (now : Z) (trace : Trace)
    : AddTraceArgs :=
  {| args_operationName :=
       default "" (or_string (or_string (explicitOperationName ext)
                                        ctx_operationName) (Some ""));
     args_queryHash := queryHash;
     args_documentAST := or_else (documentAST ext) ctx_document;
     args_queryString := default "" (or_string (queryString ext) (Some ""));
     args_trace := requestDidEnd metrics elapsed now trace |}.

(** The calls of [executionDidStart] of a request, one after the other. *)
Definition executions (calls : list (option string * Ref)) (ext : Extension)
    : Extension :=
  foldl (λ ext call, executionDidStart call.1 call.2 ext) ext calls.

(** What the client says of itself; a field may be [null] or [undefined]. *)
Record ClientInfo := {
  clientName : option string;
  clientVersion : option string;
  clientReferenceId : option string
}.

Definition clientNameHeaderKey : string := "apollographql-client-name".
Definition clientReferenceIdHeaderKey : string := "apollographql-client-reference-id".
Definition clientVersionHeaderKey : string := "apollographql-client-version".

(** [defaultGenerateClientInfo({ request })]. [http_headers] is
    [request.http.headers] when both are there, with [headers.get(name)]
    the value the headers hold for the lower-case name; [clientInfo] is
    [request.extensions.clientInfo] when both are there. *)
Definition defaultGenerateClientInfo
    (http_headers : option (list (string * string)))
    (clientInfo : option ClientInfo) : ClientInfo :=
  let fallback :=
    match clientInfo with
    | Some info => info
    | None =>
        {| clientName := None; clientVersion := None; clientReferenceId := None |}
    end in
  match http_headers with
  | Some headers =>
      if string_truthy (header_value headers clientNameHeaderKey)
         || string_truthy (header_value headers clientVersionHeaderKey)
         || string_truthy (header_value headers clientReferenceIdHeaderKey)
      then {| clientName := header_value headers clientNameHeaderKey;
              clientVersion := header_value headers clientVersionHeaderKey;
              clientReferenceId := header_value headers clientReferenceIdHeaderKey |}
      else fallback
  | None => fallback
  end.

(** The client fields of the trace: [clientName], [clientVersion],
    [clientReferenceId], each a string. *)
Record TraceClient := {
  trace_clientName : string;
  trace_clientVersion : string;
  trace_clientReferenceId : string
}.

(** [this.trace.clientVersion = clientVersion || ''] and the like, in
    [requestDidStart]. *)
Definition record_client (info : ClientInfo) : TraceClient :=
  {| trace_clientName := default "" (or_string (clientName info) (Some ""));
     trace_clientVersion := default "" (or_string (clientVersion info) (Some ""));
     trace_clientReferenceId :=
       default "" (or_string (clientReferenceId info) (Some "")) |}.

(** The text of a string that may be missing or empty: [s || '']. *)
Definition text (s : option string) : string :=
  default "" (or_string s (Some "")).

End Handoff.

Import Handoff.

(** ** The earlier version of the extension *)

Module Earlier.

(** The loop over the headers in the earlier [requestDidStart]: every
    header but the three fixed ones is recorded. *)
Definition record_headers (http : HTTP) (headers : list (string * string)) : HTTP :=
  foldl (λ http entry,
           let '(key, value) := entry in
           if bool_decide (key = "authorization") then http
           else if bool_decide (key = "cookie") then http
           else if bool_decide (key = "set-cookie") then http
           else {| method := method http;
                   requestHeaders := object_set key [value] (requestHeaders http) |})
        http headers.

(** [this.options.privateVariables && typeof this.options.privateVariables
    === 'object' && this.options.privateVariables.includes(name)]. *)
Definition listed (privateVariables : option PrivateOption) (name : string) : bool :=
  match privateVariables with
  | Some (PrivateNames names) => bool_decide (name ∈ names)
  | _ => false
  end.

(** The body of the loop over the variables: no test for [null], no
    [try]. *)
Definition record_variable (privateVariables : option PrivateOption)
    (variables : gmap string Value) (name : string) (details : Details)
    : Completion Details :=
  if listed privateVariables name then
    Returns (set_variablesJson name (Some "") details)
  else assign_json name (JSON_stringify (object_get variables name)) details.

(** The details the earlier [requestDidStart] leaves on the trace: none
    when [privateVariables] is [true] or there are no variables. *)
Definition details (privateVariables : option PrivateOption)
    (variables : option (gmap string Value)) : Completion (option Details) :=
  match privateVariables, variables with
  | Some (PrivateFlag true), _ => Returns None
  | _, None => Returns None
  | _, Some variables =>
      match forEach (record_variable privateVariables variables)
                    (Object_keys variables) new_Details with
      | Returns d => Returns (Some d)
      | Throws => Throws
      end
  end.

End Earlier.

(** ** Unique type names, without enums or scalars *)

Module UniqueTypeNames.

(** The kinds of type definition a document can hold. *)
Inductive Kind :=
  | SCALAR_TYPE_DEFINITION
  | OBJECT_TYPE_DEFINITION
  | INTERFACE_TYPE_DEFINITION
  | UNION_TYPE_DEFINITION
  | ENUM_TYPE_DEFINITION
  | INPUT_OBJECT_TYPE_DEFINITION.

#[global] Instance Kind_eq_dec : EqDecision Kind.
Proof. solve_decision. Defined.

(** A type definition node: [node.name.value], [node.kind]; [ident] tells
    one node object from another. *)
Record TypeNode := {
  name : string;
  kind : Kind;
  ident : nat
}.

(** An error handed to [context.reportError]: its message and the nodes it
    points at. *)
Record Report := {
  report_message : string;
  report_nodes : list nat
}.

(** The result of [diffTypeNodes]: the differing kinds, and for each
    differing field the types found for it, as [Object.entries] lists
    them. *)
Record Diff := {
  diff_kind : list string;
  diff_fields : list (string * list string)
}.

Definition duplicateTypeNameMessage (typeName : string) : string :=
  "There can be only one type named " +:+ String dquote typeName
  +:+ String dquote ".".

Definition existedTypeNameMessage (typeName : string) : string :=
  "Type " +:+ String dquote typeName +:+ String dquote
  " already exists in the schema. It cannot also be defined in this type definition.".

(** [a[i]] inside a template string. *)
Definition item (a : list string) (i : nat) : string :=
  default "undefined" (a !! i).

Definition fieldMismatchMessage (typeName fieldName : string) (types : list string)
    : string :=
  "Found field type mismatch on expected value type. '" +:+ typeName +:+ "."
  +:+ fieldName +:+ "' is defined as both a " +:+ item types 0 +:+ " and a "
  +:+ item types 1 +:+ ". In order to define '" +:+ typeName
  +:+ "' in multiple places, the fields and their types must be identical.".

Definition kindMismatchMessage (typeName : string) (kinds : list string) : string :=
  "Found kind mismatch on expected value type. '" +:+ typeName
  +:+ "' is defined as both a " +:+ item kinds 0 +:+ " and a " +:+ item kinds 1
  +:+ ". In order to define " +:+ typeName
  +:+ " in multiple places, the kinds must be identical.".

Definition entityMessage : string :=
  "Value types cannot be entities (using the @key directive). Please ensure that one type extends the other correctly, or remove the @key directive if this is not an entity.".

(** The state of the visitor: [knownTypeNames], and the errors reported to
    the context so far. *)
Record Visitor := {
  knownTypeNames : gmap string TypeNode;
  reported : list Report
}.

Definition new_Visitor : Visitor := {| knownTypeNames := ∅; reported := [] |}.

Definition reportError (r : Report) (v : Visitor) : Visitor :=
  {| knownTypeNames := knownTypeNames v; reported := reported v ++ [r] |}.

Section schema.

(** Provided by the validation context and by the utilities, which are not
    among the sources: the definition node the schema has for a type name
    ([schema && schema.getType(typeName)], then its [astNode]);
    [diffTypeNodes]; [isTypeNodeAnEntity]. *)
Variable schema_node : string → option TypeNode.
Variable diffTypeNodes : TypeNode → TypeNode → Diff.
Variable isTypeNodeAnEntity : TypeNode → bool.

(** [fieldsDiff.every(...)], with the errors its callback pushes: it stops
    at the first entry that does not have two types. *)
Fixpoint every_field (node fromSchema : TypeNode)
    (fieldsDiff : list (string * list string)) (possibleErrors : list Report)
    : bool * list Report :=
  match fieldsDiff with
  | [] => (true, possibleErrors)
  | (fieldName, types) :: rest =>
      if bool_decide (length types = 2) then
        every_field node fromSchema rest
          (possibleErrors ++
           [{| report_message := fieldMismatchMessage (name node) fieldName types;
               report_nodes := [ident node; ident fromSchema] |}])
      else (false, possibleErrors)
  end.

Definition checkTypeName (node : TypeNode) (v : Visitor) : Visitor :=
  let typeName := name node in
  let existed :=
    reportError {| report_message := existedTypeNameMessage typeName;
                   report_nodes := [ident node] |} v in
  match schema_node typeName with
  | Some typeNodeFromSchema =>
      if bool_decide (kind node ≠ UNION_TYPE_DEFINITION) then
        let d := diffTypeNodes node typeNodeFromSchema in
        let '(every, possibleErrors) :=
          every_field node typeNodeFromSchema (diff_fields d) [] in
        let typesHaveSameShape :=
          bool_decide (length (diff_fields d) = 0) || every in
        if typesHaveSameShape then
          let v1 := foldl (λ v r, reportError r v) v possibleErrors in
          let v2 :=
            if bool_decide (0 < length (diff_kind d)) then
              reportError
                {| report_message := kindMismatchMessage typeName (diff_kind d);
                   report_nodes := [ident node; ident typeNodeFromSchema] |} v1
            else v1 in
          if isTypeNodeAnEntity node || isTypeNodeAnEntity typeNodeFromSchema
          then reportError {| report_message := entityMessage;
                              report_nodes := [] |} v2
          else v2
        else existed
      else existed
  | None =>
      match knownTypeNames v !! typeName with
      | Some first =>
          reportError
            {| report_message := duplicateTypeNameMessage typeName;
               report_nodes := [ident first; ident node] |} v
      | None =>
          {| knownTypeNames := <[typeName := node]> (knownTypeNames v);
             reported := reported v |}
      end
  end.

(** The kinds the visitor has an entry for; scalars and enums have none. *)
Definition visited (node : TypeNode) : bool :=
  match kind node with
  | OBJECT_TYPE_DEFINITION | INTERFACE_TYPE_DEFINITION
  | UNION_TYPE_DEFINITION | INPUT_OBJECT_TYPE_DEFINITION => true
  | SCALAR_TYPE_DEFINITION | ENUM_TYPE_DEFINITION => false
  end.

(** The visitor run over the type definitions of a document, in order. *)
Definition visit (document : list TypeNode) (v : Visitor) : Visitor :=
  foldl (λ v node, if visited node then checkTypeName node v else v) v document.

End schema.

(** The names of the definitions of a document that the visitor looks at. *)
Definition visited_names (document : list TypeNode) : list string :=
  name <$> filter (λ node, visited node = true) document.

End UniqueTypeNames.
(** * Properties

    ** Path keying *)

Lemma flattened_nonempty p : flattened p ≠ [].
Proof. by destruct p as [[q|] k]. Qed.

Lemma flattened_inj p q : flattened p = flattened q → p = q.
Proof.
  revert q. induction p as [k|p k IH] using path_ind;
    intros [[q|] k']; simpl; intros H; simplify_eq.
  - by destruct (flattened_nonempty q).
  - done.
  - f_equal. f_equal. by apply IH.
  - by destruct (flattened_nonempty p).
Qed.

Lemma responsePathAsArray_inj p q :
  responsePathAsArray p = responsePathAsArray q → p = q.
Proof.
  unfold responsePathAsArray. intros H. apply flattened_inj.
  by apply (inj reverse).
Qed.

Lemma responsePathAsArray_step p k :
  responsePathAsArray (Path (Some p) k) = responsePathAsArray p ++ [k].
Proof. unfold responsePathAsArray. simpl. by rewrite reverse_cons. Qed.

Lemma responsePathAsArray_root k : responsePathAsArray (Path None k) = [k].
Proof. done. Qed.

(** *** Strings: dots, digits and [join] *)

Lemma app_String c s t : String c s +:+ t = String c (s +:+ t).
Proof. done. Qed.

Lemma app_empty t : "" +:+ t = t.
Proof. done. Qed.

Lemma string_app_assoc s1 s2 s3 : (s1 +:+ s2) +:+ s3 = s1 +:+ s2 +:+ s3.
Proof.
  induction s1 as [|c s1 IH]; [done|]. by rewrite !app_String, IH.
Qed.

Lemma has_dot_app s1 s2 : has_dot (s1 +:+ s2) = has_dot s1 || has_dot s2.
Proof.
  induction s1 as [|c s1 IH]; [done|]. rewrite app_String. simpl.
  rewrite IH. by destruct (bool_decide (c = "."%char)).
Qed.

Lemma dot_split x x' r r' :
  has_dot x = false → has_dot x' = false →
  x +:+ "." +:+ r = x' +:+ "." +:+ r' → x = x' ∧ r = r'.
Proof.
  revert x'. induction x as [|c x IH]; intros [|c' x'];
    rewrite ?app_String, ?app_empty; simpl; intros Hx Hx' H.
  - by simplify_eq.
  - by simplify_eq.
  - by simplify_eq.
  - apply orb_false_iff in Hx as [_ Hx]. apply orb_false_iff in Hx' as [_ Hx'].
    injection H as -> H. destruct (IH x' Hx Hx' H) as [-> ->]. done.
Qed.

Lemma join_cons2 sep x y l :
  join sep (x :: y :: l) = x +:+ sep +:+ join sep (y :: l).
Proof. done. Qed.

Lemma join_inj (l l' : list string) :
  l ≠ [] → l' ≠ [] →
  Forall (λ s, has_dot s = false) l → Forall (λ s, has_dot s = false) l' →
  join "." l = join "." l' → l = l'.
Proof.
  revert l'. induction l as [|x l IH]; [done|].
  intros [|x' l'] _ ? Hl Hl' H; [done|].
  apply Forall_cons in Hl as [Hx Hl]. apply Forall_cons in Hl' as [Hx' Hl'].
  destruct l as [|y l], l' as [|y' l'].
  - simpl in H. by subst.
  - rewrite join_cons2 in H. simpl in H. subst x.
    rewrite has_dot_app in Hx. simpl in Hx. by rewrite orb_true_r in Hx.
  - rewrite join_cons2 in H. simpl in H. subst x'.
    rewrite has_dot_app in Hx'. simpl in Hx'. by rewrite orb_true_r in Hx'.
  - rewrite !join_cons2 in H.
    destruct (dot_split _ _ _ _ Hx Hx' H) as [-> Hj].
    f_equal. by apply IH.
Qed.

Lemma join_snoc sep (l : list string) x :
  l ≠ [] → join sep (l ++ [x]) = join sep l +:+ sep +:+ x.
Proof.
  induction l as [|y l IH]; [done|]. intros _.
  destruct l as [|z l]; [done|].
  change ((y :: z :: l) ++ [x]) with (y :: (z :: l) ++ [x]).
  change ((z :: l) ++ [x]) with (z :: l ++ [x]) at 1.
  rewrite join_cons2. change (z :: l ++ [x]) with ((z :: l) ++ [x]).
  rewrite IH by done. rewrite join_cons2.
  by rewrite !string_app_assoc.
Qed.

Lemma pretty_N_char_digit x : is_digit (pretty_N_char x) = true.
Proof. unfold pretty_N_char. by repeat case_match. Qed.

Lemma pretty_N_go_digits x s :
  all_digits s = true → all_digits (pretty_N_go x s) = true.
Proof.
  revert s. induction (N.lt_wf_0 x) as [x _ IH]; intros s Hs.
  assert (x = 0 ∨ 0 < x)%N as [->|?] by lia.
  - by rewrite pretty_N_go_0.
  - rewrite pretty_N_go_step by done. apply IH.
    { by apply N.div_lt. }
    simpl. by rewrite pretty_N_char_digit.
Qed.

Lemma pretty_N_go_nonempty x s : s ≠ "" → pretty_N_go x s ≠ "".
Proof.
  revert s. induction (N.lt_wf_0 x) as [x _ IH]; intros s Hs.
  assert (x = 0 ∨ 0 < x)%N as [->|?] by lia.
  - by rewrite pretty_N_go_0.
  - rewrite pretty_N_go_step by done. apply IH; [by apply N.div_lt|done].
Qed.

Lemma pretty_N_digits (n : N) : all_digits (pretty n) = true.
Proof.
  unfold pretty, pretty_N. case_decide; [done|].
  by apply pretty_N_go_digits.
Qed.

Lemma pretty_N_nonempty (n : N) : pretty n ≠ "".
Proof.
  unfold pretty, pretty_N. case_decide; [done|].
  assert (0 < n)%N by lia. rewrite pretty_N_go_step by done.
  by apply pretty_N_go_nonempty.
Qed.

Lemma all_digits_no_dot s : all_digits s = true → has_dot s = false.
Proof.
  induction s as [|c s IH]; simpl; [done|].
  intros [Hc Hs]%andb_true_iff. rewrite (IH Hs), orb_false_r.
  apply bool_decide_eq_false. intros ->. done.
Qed.

Lemma key_to_string_dotfree k :
  key_dotfree k = true → has_dot (key_to_string k) = false.
Proof.
  destruct k as [s|n]; simpl.
  - by intros ->%negb_true_iff.
  - intros _. apply all_digits_no_dot, pretty_N_digits.
Qed.

Lemma key_ok_dotfree k : key_ok k = true → key_dotfree k = true.
Proof.
  destruct k as [s|n]; simpl; [|done]. unfold name_ok.
  by intros [_ ?]%andb_true_iff.
Qed.

Lemma key_to_string_nonempty k : key_ok k = true → key_to_string k ≠ "".
Proof.
  destruct k as [[|c s]|n]; simpl; [done|done|].
  intros _. apply pretty_N_nonempty.
Qed.

Lemma key_to_string_inj k k' :
  key_ok k = true → key_ok k' = true →
  key_to_string k = key_to_string k' → k = k'.
Proof.
  destruct k as [s|n], k' as [s'|n']; simpl; unfold name_ok; intros Hk Hk' H.
  - by subst.
  - subst s. by rewrite pretty_N_digits in Hk.
  - subst s'. by rewrite pretty_N_digits in Hk'.
  - f_equal. by apply (inj pretty).
Qed.

Lemma join_nonempty sep x l : x ≠ "" → join sep (x :: l) ≠ "".
Proof.
  destruct x as [|c x]; [done|]. intros _.
  destruct l as [|y l]; [done|]. by rewrite join_cons2, app_String.
Qed.

Lemma fmap_key_to_string_inj (l l' : list Key) :
  Forall (λ k, key_ok k = true) l → Forall (λ k, key_ok k = true) l' →
  key_to_string <$> l = key_to_string <$> l' → l = l'.
Proof.
  intros Hl. revert l'. induction Hl as [|k l Hk Hl IH]; intros [|k' l'] Hl' H;
    simplify_eq/=; [done|].
  apply Forall_cons in Hl' as [Hk' Hl'].
  f_equal; [by apply key_to_string_inj | by apply IH].
Qed.

Lemma path_ok_array p :
  path_ok p = true → Forall (λ k, key_ok k = true) (responsePathAsArray p).
Proof.
  unfold path_ok, responsePathAsArray. intros H.
  apply Forall_reverse, Forall_forall. intros k Hk.
  apply (proj1 (forallb_forall _ _) H). by apply list_elem_of_In.
Qed.

Lemma responsePathAsArray_nonempty p : responsePathAsArray p ≠ [].
Proof.
  unfold responsePathAsArray. intros H.
  apply (f_equal reverse) in H. rewrite reverse_involutive in H.
  by destruct (flattened_nonempty p).
Qed.

Lemma responsePathAsString_nonempty p :
  path_ok p = true → responsePathAsString (Some p) ≠ "".
Proof.
  intros Hp. apply path_ok_array in Hp. simpl.
  pose proof (responsePathAsArray_nonempty p) as Hne.
  destruct (responsePathAsArray p) as [|k l]; [done|].
  apply Forall_cons in Hp as [Hk _]. rewrite fmap_cons.
  by apply join_nonempty, key_to_string_nonempty.
Qed.

Lemma responsePathAsString_inj_Some p q :
  path_ok p = true → path_ok q = true →
  responsePathAsString (Some p) = responsePathAsString (Some q) → p = q.
Proof.
  intros Hp Hq H. apply path_ok_array in Hp, Hq. simpl in H.
  apply responsePathAsArray_inj, fmap_key_to_string_inj; [done..|].
  apply join_inj; [| |..|done].
  - intros E%fmap_nil_inv. by destruct (responsePathAsArray_nonempty p).
  - intros E%fmap_nil_inv. by destruct (responsePathAsArray_nonempty q).
  - apply Forall_fmap. eapply Forall_impl; [exact Hp|]. simpl.
    intros k Hk. by apply key_to_string_dotfree, key_ok_dotfree.
  - apply Forall_fmap. eapply Forall_impl; [exact Hq|]. simpl.
    intros k Hk. by apply key_to_string_dotfree, key_ok_dotfree.
Qed.




(** ** Trace tree builder *)

(** *** Keys of a path and of its prefix *)

Lemma string_length_app s t :
  String.length (s +:+ t) = String.length s + String.length t.
Proof.
  induction s as [|c s IH]; [done|]. rewrite app_String. simpl. by rewrite IH.
Qed.

Lemma key_root k : responsePathAsString (Some (Path None k)) = key_to_string k.
Proof. done. Qed.

Lemma key_step p k :
  responsePathAsString (Some (Path (Some p) k))
  = responsePathAsString (Some p) +:+ "." +:+ key_to_string k.
Proof.
  simpl. rewrite responsePathAsArray_step, fmap_app. simpl.
  apply join_snoc. intros E%fmap_nil_inv.
  by destruct (responsePathAsArray_nonempty p).
Qed.

Lemma starts_named_prev p pp :
  starts_named p = true → prev p = Some pp → starts_named pp = true.
Proof. destruct p as [[q|] k]; simpl; intros H E; by simplify_eq. Qed.

Lemma key_nonempty p :
  starts_named p = true → responsePathAsString (Some p) ≠ "".
Proof.
  intros H. destruct p as [[q|] k].
  - rewrite key_step. intros E. apply (f_equal String.length) in E.
    rewrite !string_length_app in E. simpl in E. lia.
  - rewrite key_root. by apply negb_true_iff, String.eqb_neq in H.
Qed.

Lemma key_extend p :
  starts_named p = true →
  responsePathAsString (Some p)
  = extend (responsePathAsString (prev p)) (key_to_string (key p)).
Proof.
  intros H. destruct p as [[q|] k]; simpl prev; simpl key.
  - rewrite key_step. unfold extend. rewrite decide_False; [done|].
    apply key_nonempty. by eapply starts_named_prev.
  - by rewrite key_root.
Qed.

Lemma key_length_prev p :
  starts_named p = true →
  String.length (responsePathAsString (prev p))
  < String.length (responsePathAsString (Some p)).
Proof.
  intros H. destruct p as [[q|] k]; simpl prev.
  - rewrite key_step, !string_length_app. simpl. lia.
  - pose proof (key_nonempty _ H) as Hne.
    destruct (responsePathAsString (Some (Path None k))); [done|simpl; lia].
Qed.

Lemma label_set_id k : label (set_id k new_Node) = key_to_string k.
Proof. by destruct k. Qed.

Lemma child_set_id k : child (set_id k new_Node) = [].
Proof. by destruct k. Qed.

(** *** How the steps of [newNode] change the child relation *)

Lemma is_child_alloc n σ p i :
  child n = [] → is_child (alloc n σ).1 p i ↔ is_child σ p i.
Proof.
  intros Hn. unfold is_child. simpl. split; intros (m & Hm & Hi).
  - apply lookup_app_Some in Hm as [Hm|[_ Hm]]; [by eauto|].
    apply list_lookup_singleton_Some in Hm as [_ <-].
    rewrite Hn in Hi. by apply elem_of_nil in Hi.
  - exists m. split; [|done]. by apply lookup_app_l_Some.
Qed.

Lemma is_child_update f r σ p i :
  (∀ n, child (f n) = child n) →
  is_child (update_node f r σ) p i ↔ is_child σ p i.
Proof.
  intros Hf. unfold is_child. simpl. split; intros (m & Hm & Hi).
  - destruct (decide (r = p)) as [->|Hne].
    + rewrite list_lookup_alter_eq in Hm.
      destruct (heap σ !! p) as [m'|] eqn:E; simplify_eq/=.
      exists m'. by rewrite <-Hf.
    + rewrite list_lookup_alter_ne in Hm by done. eauto.
  - destruct (decide (r = p)) as [->|Hne].
    + exists (f m). rewrite list_lookup_alter_eq, Hm, Hf. done.
    + exists m. by rewrite list_lookup_alter_ne.
Qed.

Lemma is_child_push c par σ p i :
  par < length (heap σ) →
  is_child (update_node (push_child_node c) par σ) p i
  ↔ is_child σ p i ∨ (p = par ∧ i = c).
Proof.
  intros Hpar. unfold is_child. simpl. split.
  - intros (m & Hm & Hi). destruct (decide (par = p)) as [->|Hne].
    + rewrite list_lookup_alter_eq in Hm.
      destruct (heap σ !! p) as [m'|] eqn:E; simplify_eq/=.
      apply elem_of_app in Hi as [Hi|Hi%list_elem_of_singleton]; eauto.
    + rewrite list_lookup_alter_ne in Hm by done. eauto.
  - intros [(m & Hm & Hi)|[-> ->]].
    + destruct (decide (par = p)) as [->|Hne].
      * exists (push_child_node c m). rewrite list_lookup_alter_eq, Hm.
        split; [done|]. simpl. apply elem_of_app. by left.
      * exists m. by rewrite list_lookup_alter_ne.
    + destruct (lookup_lt_is_Some_2 _ _ Hpar) as [m Hm].
      exists (push_child_node c m). rewrite list_lookup_alter_eq, Hm.
      split; [done|]. simpl. apply elem_of_app. right. by apply list_elem_of_singleton.
Qed.

Lemma reach_mono σ σ' i :
  (∀ p j, is_child σ p j → is_child σ' p j) → reach σ i → reach σ' i.
Proof.
  intros H. induction 1 as [|p i _ IH Hc]; [constructor|].
  eapply reach_child; [exact IH|by apply H].
Qed.

(** *** The steps of [newNode] and the tree invariant *)

Lemma tree_inv_constructor : tree_inv constructor (λ _, False) (λ _, "").
Proof.
  unfold constructor. simpl responsePathAsString.
  split; simpl; try done.
  - lia.
  - intros k i Hk. apply lookup_insert_Some in Hk as [[<- <-]|[_ Hk]]; [|done].
    split; [lia|done].
  - intros i Hi _. assert (i = root) as -> by lia. constructor.
  - intros [|p] n Hn; simplify_eq/=. constructor.
  - intros p p' i (n & Hn & Hi) _.
    destruct p; simplify_eq/=. by apply elem_of_nil in Hi.
  - intros i Hi. lia.
  - intros p i (n & Hn & Hi).
    destruct p; simplify_eq/=. by apply elem_of_nil in Hi.
  - intros p i n (m & Hm & Hi).
    destruct p; simplify_eq/=. by apply elem_of_nil in Hi.
Qed.

Lemma tree_inv_register σ P κ k n :
  tree_inv σ P κ → k ≠ "" → child n = [] →
  tree_inv (nodes_set k (length (heap σ)) (alloc n σ).1)
           (λ i, P i ∨ i = length (heap σ))
           (λ i, if decide (i = length (heap σ)) then k else κ i).
Proof.
  intros [] Hk Hn.
  assert (∀ p i, is_child (nodes_set k (length (heap σ)) (alloc n σ).1) p i
                 ↔ is_child σ p i) as Hch.
  { intros p i. apply (is_child_alloc n σ p i Hn). }
  split.
  - simpl. by rewrite lookup_insert_ne.
  - simpl. rewrite length_app. simpl. lia.
  - rewrite decide_False; [done|]. lia.
  - simpl. intros k' i Hi. rewrite length_app. simpl.
    apply lookup_insert_Some in Hi as [[<- <-]|[_ Hi]].
    + rewrite decide_True by done. split; [lia|done].
    + destruct (inv_nodes0 _ _ Hi) as [Hlt <-].
      rewrite decide_False by lia. split; [lia|done].
  - simpl. rewrite length_app. simpl. intros i [Hi| ->].
    + specialize (inv_pending0 _ Hi). lia.
    + lia.
  - simpl heap. rewrite length_app. simpl. intros i Hi Hp.
    apply (reach_mono σ); [intros; by apply Hch|].
    apply inv_reach0; [|tauto].
    destruct (decide (i = length (heap σ))); [tauto|lia].
  - simpl. intros p m Hm.
    apply lookup_app_Some in Hm as [Hm|[_ Hm]]; [by eauto|].
    apply list_lookup_singleton_Some in Hm as [_ <-]. rewrite Hn. constructor.
  - intros p p' i H1%Hch H2%Hch. eauto.
  - simpl heap. rewrite length_app. simpl. intros i Hi Hp.
    destruct (inv_parent_exists0 i) as [p Hpi].
    + destruct (decide (i = length (heap σ))); [tauto|lia].
    + tauto.
    + exists p. by apply Hch.
  - simpl heap. rewrite length_app. simpl. intros p i Hc%Hch.
    destruct (inv_child0 _ _ Hc) as [Hi Hnp]. split; [lia|].
    intros [?| ->]; [done|lia].
  - simpl heap. intros p i m Hc%Hch Hm.
    destruct (Hc) as (mp & Hmp & _).
    destruct (inv_child0 _ _ Hc) as [Hi _].
    apply lookup_lt_Some in Hmp.
    rewrite !decide_False by lia.
    apply (inv_key0 p i m Hc).
    rewrite lookup_app_l in Hm by lia. done.
Qed.

Lemma label_push_child_node c n : label (push_child_node c n) = label n.
Proof. done. Qed.

Lemma tree_inv_link σ P κ id par n :
  tree_inv σ (λ i, P i ∨ i = id) κ →
  ¬ P id → ¬ P par → par ≠ id → par < length (heap σ) →
  heap σ !! id = Some n → κ id = extend (κ par) (label n) →
  tree_inv (update_node (push_child_node id) par σ) P κ.
Proof.
  intros [] HPid HPpar Hne Hpar Hn Hκ.
  pose proof (λ p i, is_child_push id par σ p i Hpar) as Hch.
  assert (0 < id < length (heap σ)) as Hid by (apply inv_pending0; tauto).
  assert (∀ p, ¬ is_child σ p id) as Hnochild.
  { intros p Hc. destruct (inv_child0 _ _ Hc) as [_ Hnp]. tauto. }
  assert (reach σ par) as Hrpar by (apply inv_reach0; [done|tauto]).
  split.
  - done.
  - simpl. by rewrite length_alter.
  - done.
  - simpl. rewrite length_alter. done.
  - simpl. rewrite length_alter. intros i Hi. apply inv_pending0. tauto.
  - simpl heap. rewrite length_alter. intros i Hi Hp.
    destruct (decide (i = id)) as [->|Hi'].
    + apply (reach_child _ par).
      * apply (reach_mono σ); [|done]. intros p j Hc. apply Hch; auto.
      * apply Hch; auto.
    + apply (reach_mono σ); [intros p j Hc; apply Hch; auto|].
      apply inv_reach0; [done|tauto].
  - simpl. intros p m Hm. destruct (decide (par = p)) as [->|Hne'].
    + rewrite list_lookup_alter_eq in Hm.
      destruct (heap σ !! p) as [m'|] eqn:E; simplify_eq/=.
      apply NoDup_app. split; [by eauto|]. split; [|apply NoDup_singleton].
      intros x Hx ->%list_elem_of_singleton.
      apply (Hnochild p). by exists m'.
    + rewrite list_lookup_alter_ne in Hm by done. eauto.
  - intros p p' i H1%Hch H2%Hch.
    destruct H1 as [H1|[E1 E1']], H2 as [H2|[E2 E2']]; subst.
    + eauto.
    + by destruct (Hnochild p).
    + by destruct (Hnochild p').
    + done.
  - simpl heap. rewrite length_alter. intros i Hi Hp.
    destruct (decide (i = id)) as [->|Hi'].
    + exists par. apply Hch; auto.
    + destruct (inv_parent_exists0 i Hi) as [p Hc]; [tauto|].
      exists p. apply Hch; auto.
  - simpl heap. rewrite length_alter. intros p i [Hc|[-> ->]]%Hch; [|done].
    destruct (inv_child0 _ _ Hc) as [Hi Hnp]. split; [done|tauto].
  - simpl heap. intros p i m Hc Hm.
    assert (∃ m', heap σ !! i = Some m' ∧ label m = label m') as (m' & Hm' & ->).
    { destruct (decide (par = i)) as [->|Hne'].
      - rewrite list_lookup_alter_eq in Hm.
        destruct (heap σ !! i) as [m'|] eqn:E; simplify_eq/=. eauto.
      - rewrite list_lookup_alter_ne in Hm by done. eauto. }
    apply Hch in Hc as [Hc|[-> ->]]; [by eauto|].
    by simplify_eq.
Qed.

Lemma tree_inv_update f r σ P κ :
  (∀ n, child (f n) = child n) → (∀ n, label (f n) = label n) →
  tree_inv σ P κ → tree_inv (update_node f r σ) P κ.
Proof.
  intros Hfc Hfl [].
  pose proof (is_child_update f r σ) as Hch.
  split; simpl heap; simpl nodes; rewrite ?length_alter; try done.
  - intros i Hi Hp. apply (reach_mono σ); [intros p j Hc; by apply Hch|]. auto.
  - intros p m Hm. destruct (decide (r = p)) as [->|Hne].
    + rewrite list_lookup_alter_eq in Hm.
      destruct (heap σ !! p) as [m'|] eqn:E; simplify_eq/=. rewrite Hfc. eauto.
    + rewrite list_lookup_alter_ne in Hm by done. eauto.
  - intros p p' i H1%Hch H2%Hch; eauto.
  - intros i Hi Hp. destruct (inv_parent_exists0 i Hi Hp) as [p Hc].
    exists p. by apply Hch.
  - intros p i Hc%Hch; eauto.
  - intros p i m Hc%Hch Hm; [|done].
    assert (∃ m', heap σ !! i = Some m' ∧ label m = label m') as (m' & Hm' & ->).
    { destruct (decide (r = i)) as [->|Hne'].
      - rewrite list_lookup_alter_eq in Hm.
        destruct (heap σ !! i) as [m'|] eqn:E; simplify_eq/=. eauto.
      - rewrite list_lookup_alter_ne in Hm by done. eauto. }
    eauto.
Qed.

(** *** [newNode] keeps the invariant *)

Lemma newNode_eq path σ :
  newNode path σ =
  let '(σ1, node) := alloc (set_id (key path) new_Node) σ in
  let σ2 := nodes_set (responsePathAsString (Some path)) node σ1 in
  match ensureParentNode path σ2 with
  | Some (σ3, parentNode) =>
      Some (update_node (push_child_node node) parentNode σ3, node)
  | None => None
  end.
Proof. by destruct path. Qed.

Lemma labels_kept_update f r σ :
  (∀ n, label (f n) = label n) → labels_kept σ (update_node f r σ).
Proof.
  intros Hf i m Hm. simpl. destruct (decide (r = i)) as [->|Hne].
  - exists (f m). by rewrite list_lookup_alter_eq, Hm, Hf.
  - exists m. by rewrite list_lookup_alter_ne.
Qed.

Lemma labels_kept_trans σ1 σ2 σ3 :
  labels_kept σ1 σ2 → labels_kept σ2 σ3 → labels_kept σ1 σ3.
Proof.
  intros H12 H23 i m Hm. destruct (H12 _ _ Hm) as (m2 & Hm2 & <-).
  destruct (H23 _ _ Hm2) as (m3 & Hm3 & <-). eauto.
Qed.

Lemma labels_kept_register k n σ :
  labels_kept σ (nodes_set k (length (heap σ)) (alloc n σ).1).
Proof.
  intros i m Hm. exists m. simpl. split; [|done]. by apply lookup_app_l_Some.
Qed.

Lemma newNode_inv path :
  ∀ σ P κ,
    tree_inv σ P κ → starts_named path = true →
    (∀ i, P i →
       String.length (responsePathAsString (Some path)) < String.length (κ i)) →
    ∃ σ' κ',
      newNode path σ = Some (σ', length (heap σ)) ∧
      tree_inv σ' P κ' ∧
      length (heap σ) < length (heap σ') ∧
      (∀ i, i < length (heap σ) → κ' i = κ i) ∧
      κ' (length (heap σ)) = responsePathAsString (Some path) ∧
      (∀ k, String.length (responsePathAsString (Some path)) < String.length k →
            nodes σ' !! k = nodes σ !! k) ∧
      nodes σ' !! responsePathAsString (Some path) = Some (length (heap σ)) ∧
      labels_kept σ σ' ∧
      ∃ par, nodes σ' !! responsePathAsString (prev path) = Some par ∧
             is_child σ' par (length (heap σ)).
Proof.
  induction path as [k0|pp k0 IH] using path_ind; intros σ P κ Hinv Hok HP;
    rewrite newNode_eq; unfold alloc; cbv zeta beta iota;
    set (path := Path _ k0) in *;
    set (id := length (heap σ));
    set (n := set_id (key path) new_Node);
    set (ks := responsePathAsString (Some path)) in *;
    pose proof (key_nonempty path Hok) as Hks;
    pose proof (key_length_prev path Hok) as Hlen;
    pose proof (key_extend path Hok) as Hext;
    fold ks in Hks, Hlen, Hext;
    pose proof (tree_inv_register σ P κ ks n Hinv Hks (child_set_id _)) as Hinv2;
    fold id in Hinv2; unfold alloc in Hinv2; simpl fst in Hinv2;
    set (κ2 := λ i, if decide (i = id) then ks else κ i) in *;
    set (σ2 := nodes_set ks id _) in *;
    assert (heap σ2 !! id = Some n) as Hn
      by (exact (list_lookup_middle (heap σ) [] n id eq_refl));
    assert (¬ P id) as HPid
      by (intros HPi; apply (inv_pending _ _ _ Hinv) in HPi; unfold id in HPi; lia);
    assert (length (heap σ2) = S id) as Hlen2
      by (simpl; rewrite length_app; simpl; lia);
    unfold ensureParentNode;
    destruct (nodes σ2 !! responsePathAsString (prev path)) as [par|] eqn:Hpar.
  (* the single segment path: the root is the parent *)
  1,3: destruct (inv_nodes _ _ _ Hinv2 _ _ Hpar) as [Hparlt Hκpar];
    assert (par ≠ id) as Hparid
      by (intros ->; unfold κ2 in Hκpar; rewrite decide_True in Hκpar by done;
          rewrite <-Hκpar in Hlen; lia);
    assert (¬ P par) as HPpar
      by (intros HPp; specialize (HP _ HPp); unfold κ2 in Hκpar;
          rewrite decide_False in Hκpar by done; rewrite Hκpar in HP; lia);
    exists (update_node (push_child_node id) par σ2), κ2;
    (split; [done|]);
    (split; [apply (tree_inv_link σ2 P κ2 id par n); try done;
             unfold κ2 at 1; rewrite decide_True by done;
             rewrite Hκpar; unfold n; rewrite label_set_id; exact Hext|]);
    (split; [simpl; rewrite length_alter, length_app; simpl; fold id; lia|]);
    (split; [intros i Hi; unfold κ2; rewrite decide_False by (unfold id; lia); done|]);
    (split; [unfold κ2; by rewrite decide_True|]);
    (split; [intros k Hk; simpl; rewrite lookup_insert_ne; [done|];
             intros <-; lia|]);
    (split; [simpl; by rewrite lookup_insert_eq|]);
    (split; [eapply labels_kept_trans; [apply labels_kept_register|];
             apply labels_kept_update; done|]);
    (exists par; split; [exact Hpar|]; apply is_child_push; auto).
  - (* no parent path and nothing under the empty key: excluded *)
    pose proof (inv_root _ _ _ Hinv2) as Hr.
    change (responsePathAsString (prev path)) with "" in Hpar. congruence.
  - (* the parent is missing: it is created first *)
    simpl prev in *.
    assert (starts_named pp = true) as Hokpp
      by (by eapply (starts_named_prev path)).
    destruct (IH σ2 (λ i, P i ∨ i = id) κ2 Hinv2 Hokpp)
      as (σ3 & κ3 & Hnew & Hinv3 & Hlen3 & Hκ3 & Hκ3id & Hframe & Hreg & Hlab & _).
    { intros i [HPi| ->]; unfold κ2.
      - rewrite decide_False.
        + specialize (HP _ HPi). lia.
        + intros ->. done.
      - rewrite decide_True by done. lia. }
    rewrite Hnew, Hlen2 in *.
    destruct (Hlab _ _ Hn) as (n' & Hn' & Hln').
    exists (update_node (push_child_node id) (S id) σ3), κ3.
    split; [done|].
    split.
    { apply (tree_inv_link σ3 P κ3 id (S id) n'); try done.
      - intros HPp. apply (inv_pending _ _ _ Hinv) in HPp. unfold id in HPp. lia.
      - rewrite Hκ3id, Hln', (Hκ3 id) by lia.
        unfold κ2. rewrite decide_True by done.
        unfold n. rewrite label_set_id. exact Hext. }
    split; [simpl; rewrite length_alter; fold id; lia|].
    split.
    { intros i Hi. rewrite Hκ3 by (fold id in Hi; lia).
      unfold κ2. rewrite decide_False by (unfold id; lia). done. }
    split.
    { rewrite Hκ3 by lia. unfold κ2. by rewrite decide_True. }
    split.
    { intros k Hk. simpl. rewrite Hframe by lia. simpl.
      rewrite lookup_insert_ne; [done|]. intros <-. lia. }
    split.
    { simpl. rewrite Hframe by lia. simpl. by rewrite lookup_insert_eq. }
    split.
    { eapply labels_kept_trans; [apply labels_kept_register|].
      eapply labels_kept_trans; [exact Hlab|].
      apply labels_kept_update. done. }
    exists (S id). split; [exact Hreg|]. apply is_child_push; auto.
Qed.

Lemma newNode_total path :
  ∀ σ, is_Some (nodes σ !! "") →
       ∃ σ' i, newNode path σ = Some (σ', i) ∧ is_Some (nodes σ' !! "").
Proof.
  induction path as [k0|pp k0 IH] using path_ind; intros σ Hroot;
    rewrite newNode_eq; unfold alloc, ensureParentNode; cbv zeta beta iota;
    set (path := Path _ k0);
    set (σ2 := nodes_set _ _ _);
    (assert (is_Some (nodes σ2 !! "")) as Hroot2
       by (simpl; rewrite lookup_insert; case_decide; [by eexists|done]));
    destruct (nodes σ2 !! responsePathAsString (prev path)) as [par|] eqn:Hpar;
    try (by eexists _, _).
  - change (responsePathAsString (prev path)) with "" in Hpar.
    rewrite Hpar in Hroot2. by destruct Hroot2.
  - simpl prev. destruct (IH σ2 Hroot2) as (σ3 & i & -> & Hroot3).
    by eexists _, _.
Qed.

Lemma ensureParentNode_total path σ :
  is_Some (nodes σ !! responsePathAsString None) →
  is_Some (ensureParentNode path σ).
Proof.
  simpl. intros Hroot. unfold ensureParentNode.
  destruct (nodes σ !! responsePathAsString (prev path)) as [par|] eqn:Hpar;
    [done|].
  destruct path as [[pp|] k0]; simpl in *.
  - destruct (newNode_total pp σ Hroot) as (σ' & i & -> & _). done.
  - rewrite Hpar in Hroot. by destruct Hroot.
Qed.

Lemma willResolveField_inv info now σ κ :
  tree_inv σ (λ _, False) κ → starts_named (path info) = true →
  ∃ σ' κ',
    willResolveField info now σ = Some (σ', length (heap σ)) ∧
    tree_inv σ' (λ _, False) κ'.
Proof.
  intros Hinv Hok.
  destruct (newNode_inv (path info) σ (λ _, False) κ Hinv Hok)
    as (σ1 & κ1 & Hnew & Hinv1 & _); [done|].
  unfold willResolveField. rewrite Hnew.
  eexists _, κ1. split; [done|]. by apply tree_inv_update.
Qed.

Lemma run_inv evs :
  ∀ σ κ, tree_inv σ (λ _, False) κ →
    Forall (λ e, starts_named (path e.1) = true) evs →
    ∃ σ' κ', run evs σ = Some σ' ∧ tree_inv σ' (λ _, False) κ'.
Proof.
  induction evs as [|[info now] evs IH]; intros σ κ Hinv Hok; simpl.
  - by eexists _, _.
  - apply Forall_cons in Hok as [Hok1 Hok].
    destruct (willResolveField_inv info now σ κ Hinv Hok1) as (σ1 & κ1 & -> & Hinv1).
    by apply (IH σ1 κ1).
Qed.

Lemma tree_inv_ok σ κ : tree_inv σ (λ _, False) κ → tree_ok σ.
Proof.
  intros []. unfold tree_ok. split; [done|].
  split; [by auto|]. split; [done|].
  split.
  { intros i Hi. destruct (inv_parent_exists0 i Hi) as [p Hp]; [tauto|].
    exists p. split; [done|]. intros p' Hp'. eauto. }
  split.
  { intros p Hp. apply inv_child0 in Hp. lia. }
  exists κ. split; [done|]. split; [|done].
  intros k i Hk. by apply inv_nodes0.
Qed.


(** Why the first field name is taken to be non-empty: a path made of the
    empty field name alone has the key of the root. Its node replaces the
    root in [this.nodes] and becomes its own child. *)
Example empty_name_takes_the_root_key :
  ∃ σ, run [start_event (Path None (Name ""))] constructor = Some σ ∧
       nodes σ !! "" = Some 1 ∧ is_child σ 1 1 ∧ ∀ p, is_child σ p 1 → p = 1.
Proof.
  eexists. split; [by vm_compute|]. split; [by vm_compute|]. split.
  - eexists. split; [by vm_compute|]. simpl. set_solver.
  - intros p (n & Hn & Hin).
    destruct p as [|[|p]]; vm_compute in Hn; simplify_eq; [|done].
    simpl in Hin. set_solver.
Qed.

(** C1, as the code has it. The root is registered under the empty key by
    the constructor; [ensureParentNode] returns a node for every path as long
    as the empty key is registered (its recursion is on [path.prev]); and
    after any sequence of field-resolve start events on paths that do not
    start with the empty field name the nodes form a tree: every node is
    reachable from the root, every non-root node occurs once in the child
    sequence of exactly one parent, and that parent is a node of the path's
    prefix (its key extended by the node's own segment is the node's key).
    When a node is linked, its parent is the node registered under the
    prefix key at that moment. *)
Theorem tree_connected :
  nodes constructor !! responsePathAsString None = Some root ∧
  (∀ path σ, is_Some (nodes σ !! responsePathAsString None) →
             is_Some (ensureParentNode path σ)) ∧
  (∀ evs, Forall (λ e, starts_named (path e.1) = true) evs →
     ∃ σ, run evs constructor = Some σ ∧ tree_ok σ ∧
       ∀ p, starts_named p = true →
         ∃ σ' par,
           newNode p σ = Some (σ', length (heap σ)) ∧
           nodes σ' !! responsePathAsString (Some p) = Some (length (heap σ)) ∧
           nodes σ' !! responsePathAsString (prev p) = Some par ∧
           is_child σ' par (length (heap σ))).
Proof.
  split; [done|]. split; [exact ensureParentNode_total|].
  intros evs Hok.
  destruct (run_inv evs constructor _ tree_inv_constructor Hok)
    as (σ & κ & Hrun & Hinv).
  exists σ. split; [done|]. split; [by eapply tree_inv_ok|].
  intros p Hp.
  destruct (newNode_inv p σ (λ _, False) κ Hinv Hp)
    as (σ' & κ' & Hnew & _ & _ & _ & _ & _ & Hreg & _ & par & Hpar & Hc); [done|].
  by exists σ', par.
Qed.

Lemma tree_connected_witness :
  ∃ σ, run [start_event path_a_b; start_event path_a] constructor = Some σ ∧
       tree_ok σ.
Proof.
  destruct (proj2 (proj2 tree_connected)
              [start_event path_a_b; start_event path_a]) as (σ & Hrun & Hok & _).
  - repeat constructor.
  - exists σ. by split.
Defined.

(** C1 as stated fails: when the start event of a nested path comes before
    the one of its prefix, the later event registers a fresh node under the
    prefix key, and the nested node stays below the node made for it
    earlier, which is no longer the registered one. *)
Lemma parent_is_not_the_registered_prefix :
  ¬ (∀ evs σ,
       Forall (λ e, starts_named (path e.1) = true) evs →
       run evs constructor = Some σ →
       ∀ p i, starts_named p = true →
         nodes σ !! responsePathAsString (Some p) = Some i →
         ∃ par, nodes σ !! responsePathAsString (prev p) = Some par ∧
                is_child σ par i).
Proof.
  intros H.
  destruct (run [start_event path_a_b; start_event path_a] constructor)
    as [σ|] eqn:Hrun; [|by vm_compute in Hrun].
  assert (Forall (λ e, starts_named (path e.1) = true)
            [start_event path_a_b; start_event path_a]) as Hok
    by (repeat constructor).
  destruct (H _ σ Hok Hrun path_a_b 1 eq_refl) as (par & Hpar & n & Hn & Hin).
  - vm_compute in Hrun. injection Hrun as <-. by vm_compute.
  - vm_compute in Hrun. injection Hrun as <-.
    vm_compute in Hpar. injection Hpar as <-.
    vm_compute in Hn. injection Hn as <-.
    simpl in Hin. by apply elem_of_nil in Hin.
Qed.

(** *** Looking a path up twice *)

Lemma newNode_registers path :
  ∀ σ σ' i, newNode path σ = Some (σ', i) →
    i = length (heap σ) ∧
    length (heap σ) < length (heap σ') ∧
    nodes σ' !! responsePathAsString (Some path) = Some i ∧
    (∀ k, String.length (responsePathAsString (Some path)) < String.length k →
          nodes σ' !! k = nodes σ !! k).
Proof.
  induction path as [k0|pp k0 IH] using path_ind; intros σ σ' i;
    rewrite newNode_eq; unfold alloc, ensureParentNode; cbv zeta beta iota;
    set (path := Path _ k0);
    set (ks := responsePathAsString (Some path));
    set (σ2 := nodes_set _ _ _);
    destruct (nodes σ2 !! responsePathAsString (prev path)) as [par|] eqn:Hpar;
    simpl prev; try discriminate.
  1,2: intros [= <- <-]; simpl; rewrite length_alter, length_app; simpl;
    (split; [done|]); (split; [lia|]);
    (split; [by rewrite lookup_insert_eq|]);
    intros k Hk; rewrite lookup_insert_ne; [done|]; intros <-; lia.
  destruct (newNode pp σ2) as [[σ3 ip]|] eqn:Hnew; [|discriminate].
  intros [= <- <-].
  destruct (IH _ _ _ Hnew) as (_ & Hlen & _ & Hframe).
  assert (String.length (responsePathAsString (Some pp)) < String.length ks) as Hlt.
  { unfold ks, path. rewrite key_step, !string_length_app. simpl. lia. }
  simpl. rewrite length_alter. simpl in Hlen. rewrite length_app in Hlen.
  split; [done|]. split; [lia|].
  split.
  - rewrite Hframe by done. simpl. by rewrite lookup_insert_eq.
  - intros k Hk. rewrite Hframe by lia. simpl.
    rewrite lookup_insert_ne; [done|]. intros <-. lia.
Qed.

Lemma ensureParentNode_registered path σ σ' par :
  ensureParentNode path σ = Some (σ', par) →
  nodes σ' !! responsePathAsString (prev path) = Some par.
Proof.
  unfold ensureParentNode.
  destruct (nodes σ !! responsePathAsString (prev path)) as [x|] eqn:Hl.
  - by intros [= <- <-].
  - destruct (prev path) as [pp|]; [|done].
    intros Hnew. by apply newNode_registers in Hnew as (_ & _ & ? & _).
Qed.

Lemma registry_allocated_constructor : registry_allocated constructor.
Proof.
  intros k i. unfold constructor. simpl. rewrite lookup_insert.
  case_decide; [|done]. intros [= <-]. simpl. lia.
Qed.

Lemma newNode_allocated path :
  ∀ σ σ' i, registry_allocated σ → newNode path σ = Some (σ', i) →
            registry_allocated σ'.
Proof.
  induction path as [k0|pp k0 IH] using path_ind; intros σ σ' i Hreg;
    rewrite newNode_eq; unfold alloc, ensureParentNode; cbv zeta beta iota;
    set (path := Path _ k0);
    set (σ2 := nodes_set _ _ _);
    (assert (registry_allocated σ2) as Hreg2
       by (intros k j; simpl; rewrite lookup_insert, length_app; simpl;
           case_decide; [intros [= <-]; lia|intros ?%Hreg; lia]));
    destruct (nodes σ2 !! responsePathAsString (prev path)) as [par|] eqn:Hpar;
    simpl prev; try discriminate.
  1,2: intros [= <- <-]; intros k j; simpl; rewrite length_alter;
    exact (Hreg2 k j).
  destruct (newNode pp σ2) as [[σ3 ip]|] eqn:Hnew; [|discriminate].
  intros [= <- <-]. intros k j. simpl. rewrite length_alter.
  exact (IH _ _ _ Hreg2 Hnew k j).
Qed.

(** [newNode] ends with [parentNode.child.push(node)]: the node it returns
    is the last child of the node then registered for the prefix. *)
Lemma newNode_links path σ σ' i :
  registry_allocated σ → newNode path σ = Some (σ', i) →
  ∃ par n l,
    nodes σ' !! responsePathAsString (prev path) = Some par ∧
    heap σ' !! par = Some n ∧ child n = l ++ [i].
Proof.
  intros Hreg. rewrite newNode_eq. unfold alloc. cbv zeta beta iota.
  set (σ2 := nodes_set _ _ _).
  assert (registry_allocated σ2) as Hreg2.
  { intros k j. simpl. rewrite lookup_insert, length_app. simpl.
    case_decide; [intros [= <-]; lia|intros ?%Hreg; lia]. }
  destruct (ensureParentNode path σ2) as [[σ3 par]|] eqn:Hens; [|discriminate].
  intros [= <- <-].
  pose proof (ensureParentNode_registered _ _ _ _ Hens) as Hpar.
  assert (registry_allocated σ3) as Hreg3.
  { revert Hens. unfold ensureParentNode.
    destruct (nodes σ2 !! responsePathAsString (prev path)); [by intros [= <- <-]|].
    destruct (prev path) as [pp|]; [|done].
    intros Hnew. by eapply newNode_allocated. }
  destruct (lookup_lt_is_Some_2 (heap σ3) par) as [n3 Hn3]; [by eapply Hreg3|].
  exists par, (push_child_node (length (heap σ)) n3), (child n3).
  split; [exact Hpar|]. split; [|done].
  simpl. by rewrite list_lookup_alter_eq, Hn3.
Qed.

(** C2, as the code has it. A key of [this.nodes] holds one node, the one
    made last for it. [ensureParentNode] is idempotent: run again on the
    state it left, it returns the same parent and changes nothing. [newNode]
    is not: each call returns (as long as the empty key is registered),
    allocates a node that no earlier call returned, registers it under the
    key of the path and pushes it at the end of the child sequence of the
    node registered for the prefix. So [newNode] run
    twice on one path leaves two different nodes in the child sequence of the
    same parent, the second of them registered for the path. *)
Theorem ensureParentNode_idempotent :
  (∀ p σ σ' par,
     ensureParentNode p σ = Some (σ', par) →
     ensureParentNode p σ' = Some (σ', par)) ∧
  (∀ p σ, is_Some (nodes σ !! "") → is_Some (newNode p σ)) ∧
  (∀ p σ σ' i,
     registry_allocated σ →
     newNode p σ = Some (σ', i) →
     i = length (heap σ) ∧ length (heap σ) < length (heap σ') ∧
     nodes σ' !! responsePathAsString (Some p) = Some i ∧
     ∃ par n l,
       nodes σ' !! responsePathAsString (prev p) = Some par ∧
       heap σ' !! par = Some n ∧ child n = l ++ [i]) ∧
  (∀ p σ σ1 i1 σ2 i2,
     registry_allocated σ → starts_named p = true →
     newNode p σ = Some (σ1, i1) →
     newNode p σ1 = Some (σ2, i2) →
     i1 ≠ i2 ∧
     nodes σ2 !! responsePathAsString (Some p) = Some i2 ∧
     ∃ par n l,
       nodes σ2 !! responsePathAsString (prev p) = Some par ∧
       heap σ2 !! par = Some n ∧ child n = l ++ [i1; i2]).
Proof.
  split; [|split; [|split]].
  - intros p σ σ' par H. apply ensureParentNode_registered in H.
    unfold ensureParentNode. by rewrite H.
  - intros p σ Hroot.
    destruct (newNode_total p σ Hroot) as (σ' & i & -> & _). done.
  - intros p σ σ' i Hreg H.
    pose proof (newNode_links _ _ _ _ Hreg H) as Hlink.
    apply newNode_registers in H. tauto.
  - intros p σ σ1 i1 σ2 i2 Hreg Hp H1 H2.
    pose proof (newNode_registers _ _ _ _ H1) as (-> & Hlen1 & _ & _).
    pose proof (newNode_registers _ _ _ _ H2) as (-> & _ & Hreg2 & _).
    split; [lia|]. split; [done|].
    destruct (newNode_links _ _ _ _ Hreg H1) as (par & n & l & Hpar & Hn & Hl).
    assert (responsePathAsString (Some p) ≠ responsePathAsString (prev p))
      as Hkey.
    { intros E. pose proof (key_length_prev p Hp) as Hlt. rewrite E in Hlt. lia. }
    revert H2. rewrite newNode_eq. unfold alloc, ensureParentNode.
    cbv zeta beta iota. cbn [nodes nodes_set].
    rewrite lookup_insert_ne, Hpar by exact Hkey.
    intros [= <-]. exists par, (push_child_node (length (heap σ1)) n), l.
    split; [cbn [nodes nodes_set update_node]; by rewrite lookup_insert_ne|].
    split.
    + simpl. rewrite list_lookup_alter_eq, lookup_app_l by (by eapply lookup_lt_Some).
      by rewrite Hn.
    + simpl. rewrite Hl, <- app_assoc. done.
Qed.

Lemma ensureParentNode_idempotent_witness :
  (∃ σ' par,
     ensureParentNode path_a_b constructor = Some (σ', par) ∧
     ensureParentNode path_a_b σ' = Some (σ', par)) ∧
  (∃ σ1 i1 σ2 i2 par n l,
     newNode path_a constructor = Some (σ1, i1) ∧
     newNode path_a σ1 = Some (σ2, i2) ∧
     i1 ≠ i2 ∧ heap σ2 !! par = Some n ∧ child n = l ++ [i1; i2]).
Proof.
  split.
  - eexists _, _. split.
    + vm_compute. reflexivity.
    + apply (proj1 ensureParentNode_idempotent path_a_b constructor).
      vm_compute. reflexivity.
  - destruct (newNode path_a constructor) as [[σ1 i1]|] eqn:H1;
      [|by vm_compute in H1].
    destruct (newNode path_a σ1) as [[σ2 i2]|] eqn:H2.
    2: { vm_compute in H1. injection H1 as <- <-. by vm_compute in H2. }
    destruct (proj2 (proj2 (proj2 ensureParentNode_idempotent)) path_a constructor
                σ1 i1 σ2 i2 registry_allocated_constructor eq_refl H1 H2)
      as (Hne & _ & par & n & l & _ & Hn & Hl).
    by exists σ1, i1, σ2, i2, par, n, l.
Defined.

(** C2 as stated fails: [newNode] run twice on one path leaves two nodes
    for it in the child sequence of the same parent. *)
Lemma newNode_twice_two_children :
  ¬ (∀ p σ1 i1 σ2 i2 par n,
       starts_named p = true →
       newNode p constructor = Some (σ1, i1) →
       newNode p σ1 = Some (σ2, i2) →
       heap σ2 !! par = Some n → i1 ∈ child n → i2 ∈ child n → i1 = i2).
Proof.
  intros H.
  destruct (newNode path_a constructor) as [[σ1 i1]|] eqn:H1;
    [|by vm_compute in H1].
  destruct (newNode path_a σ1) as [[σ2 i2]|] eqn:H2.
  2: { vm_compute in H1. injection H1 as <- <-. by vm_compute in H2. }
  destruct (heap σ2 !! root) as [n|] eqn:Hn.
  2: { vm_compute in H1. injection H1 as <- <-.
       vm_compute in H2. injection H2 as <- <-. by vm_compute in Hn. }
  assert (i1 = i2 → False) as Hne.
  { vm_compute in H1. injection H1 as <- <-.
    vm_compute in H2. injection H2 as <- <-. done. }
  apply Hne, (H path_a σ1 i1 σ2 i2 root n eq_refl H1 H2 Hn).
  - vm_compute in H1. injection H1 as <- <-.
    vm_compute in H2. injection H2 as <- <-.
    vm_compute in Hn. injection Hn as <-. simpl. set_solver.
  - vm_compute in H1. injection H1 as <- <-.
    vm_compute in H2. injection H2 as <- <-.
    vm_compute in Hn. injection Hn as <-. simpl. set_solver.
Qed.

(** ** Error rewriting *)

Lemma sum_list_alter {A} (f : A → nat) (g : A → A) (l : list A) i x :
  l !! i = Some x → f (g x) = S (f x) →
  sum_list (f <$> alter g i l) = S (sum_list (f <$> l)).
Proof.
  revert i. induction l as [|y l IH]; intros [|i] Hi Hg; try done.
  - injection Hi as ->.
    change (f (g x) + sum_list (f <$> l) = S (f x + sum_list (f <$> l))).
    lia.
  - change (f y + sum_list (f <$> alter g i l) = S (f y + sum_list (f <$> l))).
    rewrite (IH i) by done. lia.
Qed.


Section attach_lemmas.

Variable JSON_stringify_error : GraphQLError → string.

#[local] Abbreviation addError := (addError JSON_stringify_error).
#[local] Abbreviation trace_error := (trace_error JSON_stringify_error).

Lemma addError_attach e σ :
  addError e σ =
    match attach_node (e_path e) σ with
    | Some r => Some (update_node (push_error_node (trace_error e)) r σ)
    | None => None
    end.
Proof.
  unfold ErrorPipeline.addError, attach_node.
  destruct (e_path e) as [p|]; [|done].
  by destruct (nodes σ !! join "." (key_to_string <$> p)).
Qed.

Lemma attach_node_in_range σ P κ p :
  tree_inv σ P κ → ∃ r n, attach_node p σ = Some r ∧ heap σ !! r = Some n.
Proof.
  intros Hinv.
  assert (∃ r, attach_node p σ = Some r ∧ ∃ k, nodes σ !! k = Some r)
    as (r & Hr & k & Hk).
  { unfold attach_node. destruct p as [p|].
    - destruct (nodes σ !! join "." (key_to_string <$> p)) as [s|] eqn:Hs.
      + eauto.
      + exists 0. split; [apply (inv_root _ _ _ Hinv)|].
        exists "". apply (inv_root _ _ _ Hinv).
    - exists 0. split; [apply (inv_root _ _ _ Hinv)|].
      exists "". apply (inv_root _ _ _ Hinv). }
  apply (inv_nodes _ _ _ Hinv) in Hk as [Hlt _].
  destruct (lookup_lt_is_Some_2 _ _ Hlt) as [n Hn]. eauto.
Qed.

Lemma addError_in_tree e σ P κ :
  tree_inv σ P κ →
  ∃ σ' r n,
    addError e σ = Some σ' ∧
    r = match e_path e with
        | Some p => default root (nodes σ !! join "." (key_to_string <$> p))
        | None => root
        end ∧
    heap σ !! r = Some n ∧
    heap σ' = <[r := push_error_node (trace_error e) n]> (heap σ) ∧
    nodes σ' = nodes σ ∧
    tree_inv σ' P κ ∧
    errors_recorded σ' = S (errors_recorded σ).
Proof.
  intros Hinv.
  destruct (attach_node_in_range σ P κ (e_path e) Hinv) as (r & n & Hr & Hn).
  rewrite addError_attach, Hr. eexists _, r, n. split; [done|].
  split.
  { unfold attach_node in Hr. rewrite (inv_root _ _ _ Hinv) in Hr.
    destruct (e_path e) as [p|]; [|by simplify_eq].
    destruct (nodes σ !! join "." (key_to_string <$> p)); by simplify_eq. }
  split; [done|]. split.
  { simpl. rewrite list_insert_alter. apply list_eq. intros i.
    destruct (decide (r = i)) as [->|Hne].
    - by rewrite !list_lookup_alter_eq, Hn.
    - by rewrite !list_lookup_alter_ne. }
  split; [done|]. split; [by apply tree_inv_update|].
  unfold errors_recorded. simpl.
  apply (sum_list_alter _ _ _ _ n); [done|]. simpl.
  rewrite length_app. simpl. lia.
Qed.

End attach_lemmas.

Section rewrite.

Context {World : Type}.
Variable locations_of :
  Heap World → option Ref → option Ref → option Ref → option (list (N * N)).
Variable own_enumerable : ErrorObject → ErrorObject.
Variable JSON_stringify_error : Heap World → nat → string.

#[local] Abbreviation clone := (clone own_enumerable).
#[local] Abbreviation new_GraphQLError := (new_GraphQLError locations_of).
#[local] Abbreviation rewriteError := (rewriteError locations_of own_enumerable).
#[local] Abbreviation didEncounterErrors :=
  (didEncounterErrors locations_of own_enumerable JSON_stringify_error).

(** The error [rewriteError] returns is the one [didEncounterErrors]
    attaches, as it is in the heap then. *)
Lemma didEncounterErrors_reports hook err h h1 r e σ P κ :
  rewriteError hook err h = Some (h1, Returns (Some r)) →
  objects h1 !! r = Some e → tree_inv σ P κ →
  ∃ node n,
    attach_node (e_path (view h1 e)) σ = Some node ∧
    heap σ !! node = Some n ∧
    didEncounterErrors hook [err] σ h =
      Some (update_node
              (push_error_node
                 (trace_error (λ _, JSON_stringify_error h1 r) (view h1 e)))
              node σ,
            h1, Returns ()).
Proof.
  intros Hrw He Hinv.
  destruct (attach_node_in_range σ P κ (e_path (view h1 e)) Hinv)
    as (node & n & Hnode & Hn).
  exists node, n. split; [done|]. split; [done|].
  cbn [ErrorPipeline.didEncounterErrors]. rewrite Hrw, He.
  by rewrite addError_attach, Hnode.
Qed.

(** What the constructor leaves in the heap. *)
Lemma new_GraphQLError_heap msg nds src pos pth orig ext (h : Heap World) :
  ∃ o,
    new_GraphQLError msg nds src pos pth orig ext h
    = ((new_GraphQLError msg nds src pos pth orig ext h).1, length (objects h)) ∧
    objects (new_GraphQLError msg nds src pos pth orig ext h).1
    = objects h ++ [o] ∧
    paths (new_GraphQLError msg nds src pos pth orig ext h).1 = paths h ∧
    world (new_GraphQLError msg nds src pos pth orig ext h).1 = world h ∧
    locs h `prefix_of` locs (new_GraphQLError msg nds src pos pth orig ext h).1 ∧
    o_message o = msg ∧ o_nodes o = nds ∧ o_source o = src ∧
    o_positions o = pos ∧ o_path o = pth ∧ o_originalError o = orig ∧
    o_extensions o = ext ∧
    locations (view (new_GraphQLError msg nds src pos pth orig ext h).1 o)
    = locations_of h nds src pos.
Proof.
  unfold ErrorPipeline.new_GraphQLError.
  destruct (locations_of h nds src pos) as [l|] eqn:Hl; simpl.
  - eexists. split; [done|]. split; [done|]. split; [done|]. split; [done|].
    split; [by apply prefix_app_r|]. repeat (split; [done|]).
    simpl. by rewrite list_lookup_middle.
  - eexists. split; [done|]. split; [done|]. split; [done|]. split; [done|].
    split; [done|]. by repeat (split; [done|]).
Qed.


End rewrite.




(** ** Variable redaction *)

Lemma JSON_stringify_undefined v :
  JSON_stringify v = Returns None → v = VUndefined ∨ v = VFunction.
Proof.
  destruct v as [| | | | |l|l| | | |]; simpl; try done; auto.
  - by destruct ((fix elements (l : list Value) := _) l).
  - by destruct ((fix properties (l : list (string * Value)) := _) l).
Qed.

Lemma lookup_object_set {A} (o : gmap string A) name v k :
  object_set name v o !! k =
    if decide (k = name ∧ name ≠ "__proto__") then Some v else o !! k.
Proof.
  unfold object_set. case_bool_decide as Hp.
  - rewrite decide_False; [done|]. by intros [_ ?].
  - destruct (decide (k = name)) as [->|Hne].
    + rewrite decide_True by done. by rewrite lookup_insert_eq.
    + rewrite decide_False by (by intros [? _]). by rewrite lookup_insert_ne.
Qed.

Lemma record_variable_returns svv vtr name d :
  record_variable svv vtr name d =
    Returns (set_variablesJson name
               (recorded_value svv name (object_get vtr name)) d).
Proof.
  unfold record_variable, recorded_value.
  destruct (redacts svv name); [done|].
  destruct (is_nullish (object_get vtr name)); [done|].
  by destruct (JSON_stringify (object_get vtr name)) as [s|].
Qed.

Lemma forEach_record_variable svv vtr l :
  ∀ d, ∃ d',
    forEach (record_variable svv vtr) l d = Returns d' ∧
    ∀ name,
      variablesJson d' !! name =
        if decide (name ∈ l ∧ name ≠ "__proto__")
        then Some (recorded_value svv name (object_get vtr name))
        else variablesJson d !! name.
Proof.
  induction l as [|x l IH]; intros d; cbn [forEach].
  - exists d. split; [done|]. intros name.
    rewrite decide_False; [done|]. intros [?%elem_of_nil _]. done.
  - rewrite record_variable_returns.
    destruct (IH (set_variablesJson x
                    (recorded_value svv x (object_get vtr x)) d))
      as (d' & -> & Hd').
    exists d'. split; [done|]. intros name. rewrite Hd'. simpl.
    rewrite lookup_object_set.
    destruct (decide (name ∈ l ∧ name ≠ "__proto__")) as [[Hin Hp]|Hnot].
    + rewrite decide_True; [done|]. split; [by right|done].
    + destruct (decide (name = x ∧ x ≠ "__proto__")) as [[-> Hp]|Hne].
      * rewrite decide_True; [done|]. split; [by left|done].
      * rewrite decide_False; [done|].
        intros [[->|Hin]%elem_of_cons Hp]; [by apply Hne|by apply Hnot].
Qed.

Lemma elem_of_Object_keys {A} (o : gmap string A) name :
  name ∈ Object_keys o ↔ is_Some (o !! name).
Proof.
  unfold Object_keys. rewrite list_elem_of_fmap. split.
  - intros ([k v] & -> & H%elem_of_map_to_list). by eexists.
  - intros [v Hv]. exists (name, v). split; [done|]. by apply elem_of_map_to_list.
Qed.

Lemma object_get_own o name v : o !! name = Some v → object_get o name = v.
Proof. unfold object_get. by intros ->. Qed.

(** [makeTraceDetails] raises when the modifier does, and only then; what it
    records under each name. *)
Lemma makeTraceDetails_throws variables svv op :
  variablesToRecord variables svv op = Throws →
  makeTraceDetails variables svv op = Throws.
Proof. unfold makeTraceDetails. by intros ->. Qed.

Lemma makeTraceDetails_returns variables svv op vtr :
  variablesToRecord variables svv op = Returns vtr →
  ∃ d, makeTraceDetails variables svv op = Returns d ∧
       ∀ name, variablesJson d !! name =
                 if decide (name = "__proto__") then None
                 else recorded_value svv name <$> vtr !! name.
Proof.
  unfold makeTraceDetails. intros ->.
  destruct (forEach_record_variable svv vtr (Object_keys vtr) new_Details)
    as (d & Hd & Hl).
  exists d. split; [done|]. intros name. rewrite Hl. simpl.
  destruct (decide (name = "__proto__")) as [->|Hp].
  { rewrite decide_False; [done|]. by intros [_ ?]. }
  destruct (vtr !! name) as [v|] eqn:Hv; simpl.
  - rewrite decide_True.
    + by rewrite (object_get_own _ _ _ Hv).
    + split; [|done]. apply elem_of_Object_keys. by eexists.
  - rewrite decide_False; [done|].
    intros [[? ?]%elem_of_Object_keys _]. congruence.
Qed.

Lemma variablesToRecord_plain variables svv op :
  (∀ f, svv ≠ Some (ValueModifier f)) →
  variablesToRecord variables svv op = Returns variables.
Proof. intros H. destruct svv as [[l|b|f]|]; try done. by destruct (H f). Qed.

Lemma cleanModifiedVariables_lookup keys modified name :
  cleanModifiedVariables keys modified !! name =
    if decide (name ∈ keys ∧ name ≠ "__proto__")
    then Some (object_get modified name) else None.
Proof.
  unfold cleanModifiedVariables.
  assert (∀ acc : gmap string Value,
            foldl (λ c n, object_set n (object_get modified n) c) acc keys !! name =
            if decide (name ∈ keys ∧ name ≠ "__proto__")
            then Some (object_get modified name)
            else acc !! name) as H.
  { induction keys as [|k keys IH]; intros acc; cbn [foldl].
    - rewrite decide_False; [done|]. intros [?%elem_of_nil _]. done.
    - rewrite IH, lookup_object_set.
      destruct (decide (name ∈ keys ∧ name ≠ "__proto__")) as [[Hin Hp]|Hnot].
      + rewrite decide_True; [done|]. split; [by right|done].
      + destruct (decide (name = k ∧ k ≠ "__proto__")) as [[-> Hp]|Hne].
        * rewrite decide_True; [done|]. split; [by left|done].
        * rewrite decide_False; [done|].
          intros [[->|Hin]%elem_of_cons Hp]; [by apply Hne|by apply Hnot]. }
  rewrite H. by rewrite lookup_empty.
Qed.

Lemma variablesToRecord_modifier variables f op modified :
  f variables op = Returns modified →
  ∃ vtr,
    variablesToRecord variables (Some (ValueModifier f)) op = Returns vtr ∧
    ∀ name, vtr !! name =
      if decide (name = "__proto__") then None
      else match variables !! name with
           | Some _ => Some (object_get modified name)
           | None => None
           end.
Proof.
  intros Hf. simpl. rewrite Hf. eexists. split; [done|]. intros name.
  rewrite cleanModifiedVariables_lookup.
  destruct (decide (name = "__proto__")) as [->|Hp].
  { rewrite decide_False; [done|]. by intros [_ ?]. }
  destruct (variables !! name) as [v|] eqn:Hv.
  - rewrite decide_True; [done|]. split; [|done].
    apply elem_of_Object_keys. by eexists.
  - rewrite decide_False; [done|].
    intros [[? ?]%elem_of_Object_keys _]. congruence.
Qed.

(** With a modifier that returns: what is recorded under each name. *)
Lemma makeTraceDetails_modifier variables f op modified :
  f variables op = Returns modified →
  ∃ d, makeTraceDetails variables (Some (ValueModifier f)) op = Returns d ∧
       ∀ name, variablesJson d !! name =
         if decide (name = "__proto__") then None
         else match variables !! name with
              | Some _ =>
                  Some (recorded_value (Some (ValueModifier f)) name
                          (object_get modified name))
              | None => None
              end.
Proof.
  intros Hf.
  destruct (variablesToRecord_modifier _ _ _ _ Hf) as (vtr & Hvtr & Hl).
  destruct (makeTraceDetails_returns _ _ _ _ Hvtr) as (d & Hd & Hd').
  exists d. split; [done|]. intros name. rewrite Hd', Hl.
  destruct (decide (name = "__proto__")); [done|].
  by destruct (variables !! name).
Qed.

(** C5. For [{a: 1, b: "x"}] and the list of excepted names [b],
    [makeTraceDetails] records [{a: "1", b: ""}]. With no configuration it
    records the empty string for every variable, but for one named
    [__proto__], for which nothing is recorded: every value recorded is the
    empty string. A variable holding the empty string, when it is sent, is
    recorded as two quote characters, which is not the empty string. *)
Theorem makeTraceDetails_redaction :
  (∀ op, makeTraceDetails variables_a_b (Some (ExceptVariableNames ["b"])) op
         = Returns {| variablesJson :=
                        <["a" := Some "1"]> (<["b" := Some ""]> ∅) |}) ∧
  (∀ variables op, ∃ d,
     makeTraceDetails variables None op = Returns d ∧
     ∀ name, variablesJson d !! name =
               if decide (name = "__proto__") then None
               else (λ _, Some "") <$> variables !! name) ∧
  (∀ variables op name,
     variables !! name = Some (VString "") → name ≠ "__proto__" → ∃ d,
       makeTraceDetails variables (Some (SafelistAll true)) op = Returns d ∧
       variablesJson d !! name = Some (Some (String dquote (String dquote ""))) ∧
       String dquote (String dquote "") ≠ "").
Proof.
  split; [|split].
  - intros op. by vm_compute.
  - intros variables op.
    destruct (makeTraceDetails_returns variables None op variables eq_refl)
      as (d & Hd & Hl).
    exists d. split; [done|]. intros name. rewrite Hl.
    destruct (decide (name = "__proto__")); [done|].
    by destruct (variables !! name).
  - intros variables op name Hv Hp.
    destruct (makeTraceDetails_returns variables (Some (SafelistAll true)) op
                variables eq_refl) as (d & Hd & Hl).
    exists d. split; [done|]. split; [|done].
    rewrite Hl, decide_False, Hv by done. done.
Qed.

Lemma makeTraceDetails_redaction_witness :
  ∃ d,
    makeTraceDetails (<["e" := VString ""]> ∅) (Some (SafelistAll true)) None
    = Returns d ∧
    variablesJson d !! "e" = Some (Some (String dquote (String dquote ""))) ∧
    String dquote (String dquote "") ≠ "".
Proof.
  apply (proj2 (proj2 makeTraceDetails_redaction)
           (<["e" := VString ""]> ∅) None "e").
  - by vm_compute.
  - discriminate.
Defined.










(** ** Header redaction *)

Lemma record_header_eq sh http key value :
  requestHeaders (record_header sh http (key, value)) =
    if withheld sh key then requestHeaders http
    else object_set key [value] (requestHeaders http).
Proof.
  unfold record_header, withheld, sensitive.
  destruct (match sh with Except _ => _ | HeadersSafelistAll _ => _ end);
    [done|]. simpl.
  repeat case_bool_decide; try done;
    repeat match goal with
           | H : _ ∈ _ :: _ |- _ => apply elem_of_cons in H as [H|H]
           | H : _ ∈ [] |- _ => by apply elem_of_nil in H
           | H : ¬ _ ∈ _ |- _ => destruct H; subst; by repeat constructor
           end; done.
Qed.

Lemma foldl_record_header_withheld sh headers :
  ∀ http name, withheld sh name = true →
    requestHeaders (foldl (record_header sh) http headers) !! name
    = requestHeaders http !! name.
Proof.
  induction headers as [|[key value] headers IH]; intros http name Hw;
    cbn [foldl]; [done|].
  rewrite IH by done. rewrite record_header_eq.
  destruct (withheld sh key) eqn:Hk; [done|].
  rewrite lookup_object_set, decide_False; [done|]. intros [-> _]. congruence.
Qed.

Lemma foldl_record_header_keys sh headers :
  ∀ http name,
    is_Some (requestHeaders (foldl (record_header sh) http headers) !! name) →
    is_Some (requestHeaders http !! name) ∨
    (∃ value, (name, value) ∈ headers) ∧ withheld sh name = false.
Proof.
  induction headers as [|[key value] headers IH]; intros http name;
    cbn [foldl]; [by left|].
  intros [H|[[v Hv] Hw]]%IH.
  - rewrite record_header_eq in H.
    destruct (withheld sh key) eqn:Hk; [by left|].
    rewrite lookup_object_set in H.
    destruct (decide (name = key ∧ key ≠ "__proto__")) as [[-> _]|Hne].
    + right. split; [|done]. exists value. by left.
    + by left.
  - right. split; [|done]. exists v. by right.
Qed.

Lemma withheld_sensitive sh name : name ∈ sensitive → withheld sh name = true.
Proof.
  intros H. unfold withheld. rewrite (bool_decide_eq_true_2 _ H).
  apply orb_true_r.
Qed.

Lemma withheld_except except key e :
  e ∈ except → toLowerCase e = toLowerCase key →
  withheld (Except except) key = true.
Proof.
  intros He Hl. unfold withheld. apply orb_true_iff. left.
  apply existsb_exists. exists e. split; [by apply list_elem_of_In|].
  by apply bool_decide_eq_true.
Qed.

Lemma makeHTTPRequestHeaders_withheld http headers sh name :
  (∀ s, sh = Some s → withheld s name = true) →
  requestHeaders (makeHTTPRequestHeaders http headers sh) !! name
  = requestHeaders http !! name.
Proof.
  intros Hw. unfold makeHTTPRequestHeaders.
  destruct sh as [[except|[|]]|]; try done;
    by apply foldl_record_header_withheld, Hw.
Qed.

(** C6. Whatever the headers and the policy, in its current or in its
    deprecated form, the headers recorded on a fresh [Trace.HTTP] have no
    entry under [authorization], [cookie] or [set-cookie]; when the header
    names are in lower case, as the [Headers] object yields them, there is
    no entry under a name that differs from these in case only. A header
    whose name is on the list of exceptions, compared in lower case, has no
    entry either. *)
Theorem makeHTTPRequestHeaders_withholds :
  (∀ m headers sendHeaders name,
     name ∈ sensitive →
     requestHeaders (makeHTTPRequestHeaders (new_HTTP m) headers sendHeaders) !! name
     = None) ∧
  (∀ m headers privateHeaders name,
     name ∈ sensitive →
     requestHeaders (makeHTTPRequestHeadersLegacy (new_HTTP m) headers privateHeaders)
       !! name = None) ∧
  (∀ m headers sendHeaders name,
     Forall (λ entry, toLowerCase entry.1 = entry.1) headers →
     is_Some (requestHeaders (makeHTTPRequestHeaders (new_HTTP m) headers sendHeaders)
                !! name) →
     toLowerCase name ∉ sensitive) ∧
  (∀ m headers except exceptHeader key,
     exceptHeader ∈ except → toLowerCase exceptHeader = toLowerCase key →
     requestHeaders (makeHTTPRequestHeaders (new_HTTP m) headers (Some (Except except)))
       !! key = None ∧
     requestHeaders (makeHTTPRequestHeadersLegacy (new_HTTP m) headers
                       (PrivateNames except)) !! key = None).
Proof.
  split; [|split; [|split]].
  - intros m headers sh name Hn.
    rewrite makeHTTPRequestHeaders_withheld; [done|].
    intros s _. by apply withheld_sensitive.
  - intros m headers ph name Hn. unfold makeHTTPRequestHeadersLegacy.
    rewrite makeHTTPRequestHeaders_withheld; [done|].
    intros s _. by apply withheld_sensitive.
  - intros m headers sh name Hlow Hsome.
    assert (∃ s, is_Some (requestHeaders
                            (foldl (record_header s) (new_HTTP m) headers) !! name))
      as [s Hs].
    { unfold makeHTTPRequestHeaders in Hsome.
      destruct sh as [[except|[|]]|]; simpl in Hsome;
        try (by destruct Hsome as [? Hsome]; rewrite lookup_empty in Hsome);
        eauto. }
    apply foldl_record_header_keys in Hs as [[? Hs]|[[v Hv] Hw]].
    { simpl in Hs. by rewrite lookup_empty in Hs. }
    rewrite Forall_forall in Hlow. pose proof (Hlow _ Hv) as Hn.
    simpl in Hn. rewrite Hn.
    unfold withheld in Hw. apply orb_false_iff in Hw as [_ Hw].
    by apply bool_decide_eq_false in Hw.
  - intros m headers except e key He Hl. split.
    + rewrite makeHTTPRequestHeaders_withheld; [done|].
      intros s [= <-]. by eapply withheld_except.
    + unfold makeHTTPRequestHeadersLegacy.
      rewrite makeHTTPRequestHeaders_withheld; [done|].
      intros s [= <-]. by eapply withheld_except.
Qed.

Lemma makeHTTPRequestHeaders_withholds_witness :
  requestHeaders
    (makeHTTPRequestHeaders (new_HTTP (http_method "POST"))
       [("x-token", "t"); ("accept", "*/*")] (Some (Except ["X-Token"])))
    !! "x-token" = None ∧
  requestHeaders
    (makeHTTPRequestHeadersLegacy (new_HTTP (http_method "POST"))
       [("x-token", "t"); ("accept", "*/*")] (PrivateNames ["X-Token"]))
    !! "x-token" = None.
Proof.
  apply (proj2 (proj2 (proj2 makeHTTPRequestHeaders_withholds))
           (http_method "POST") [("x-token", "t"); ("accept", "*/*")] ["X-Token"]
           "X-Token" "x-token").
  - set_solver.
  - reflexivity.
Defined.

(** ** Flags of the finished trace *)

(** The three flags set at the end are those of the metrics at the end. *)
Lemma requestDidEnd_flags metrics elapsed now trace :
  let t := requestDidEnd metrics elapsed now trace in
  fullQueryCacheHit t = truthy (responseCacheHit metrics) ∧
  trace_forbiddenOperation t = truthy (forbiddenOperation metrics) ∧
  trace_registeredOperation t = truthy (registeredOperation metrics).
Proof. done. Qed.

(** With a header policy the persisted query flags of a fresh trace are
    those of the metrics at the start. *)
Lemma requestDidStart_persisted_flags options request queryString variables
    metrics now t :
  is_Some (sendHeaders options) ∨ is_Some (privateHeaders options) →
  requestDidStart options request queryString variables metrics now new_Trace
  = Returns t →
  trace_persistedQueryHit t = truthy (persistedQueryHit metrics) ∧
  trace_persistedQueryRegister t = truthy (persistedQueryRegister metrics).
Proof.
  intros Hcfg. unfold requestDidStart.
  assert (bool_decide (is_Some (sendHeaders options))
          || bool_decide (is_Some (privateHeaders options)) = true) as ->.
  { apply orb_true_iff. destruct Hcfg; [left|right]; by apply bool_decide_eq_true. }
  destruct (match variables with Some _ => _ | None => _ end) as [d|];
    [|done].
  intros [= <-]. simpl.
  by destruct (truthy (persistedQueryHit metrics)),
              (truthy (persistedQueryRegister metrics)).
Qed.

(** Without a header policy [requestDidStart] leaves both persisted query
    flags as they were, whatever the metrics say. *)
Lemma requestDidStart_no_header_policy options request queryString variables
    metrics now trace t :
  sendHeaders options = None → privateHeaders options = None →
  requestDidStart options request queryString variables metrics now trace
  = Returns t →
  trace_persistedQueryHit t = trace_persistedQueryHit trace ∧
  trace_persistedQueryRegister t = trace_persistedQueryRegister trace.
Proof.
  intros Hs Hp. unfold requestDidStart. rewrite Hs, Hp.
  destruct (match variables with Some _ => _ | None => _ end) as [d|];
    [|done].
  by intros [= <-].
Qed.

(** C4, at the input on which the code departs from it: no header option
    is given and the request was served from the persisted query cache.
    The metrics say so at the start and at the end of the request, and the
    finished trace does not. *)
Theorem persisted_flag_lost_without_header_policy :
  ∃ t,
    requestDidStart no_options post_request None None persisted_hit 0 new_Trace
    = Returns t ∧
    truthy (persistedQueryHit persisted_hit) = true ∧
    trace_persistedQueryHit (requestDidEnd persisted_hit (0, 0)%Z 0 t) = false.
Proof. eexists. split; [reflexivity|]. by split. Qed.

(** * Further properties

    ** Nodes keep their fields while the tree grows *)

Lemma node_grows_refl n : node_grows n n.
Proof. by repeat split. Qed.

Lemma node_grows_trans n1 n2 n3 :
  node_grows n1 n2 → node_grows n2 n3 → node_grows n1 n3.
Proof.
  intros (?&?&?&?&?&?&?&?) (?&?&?&?&?&?&?&?).
  repeat split; try congruence. by etrans.
Qed.

Lemma heap_grows_refl σ : heap_grows σ σ.
Proof. intros i n Hn. exists n. split; [done|apply node_grows_refl]. Qed.

Lemma heap_grows_trans σ1 σ2 σ3 :
  heap_grows σ1 σ2 → heap_grows σ2 σ3 → heap_grows σ1 σ3.
Proof.
  intros H12 H23 i n Hn. destruct (H12 _ _ Hn) as (n2 & Hn2 & Hg2).
  destruct (H23 _ _ Hn2) as (n3 & Hn3 & Hg3).
  exists n3. split; [done|]. by eapply node_grows_trans.
Qed.

Lemma heap_grows_register k n σ :
  heap_grows σ (nodes_set k (length (heap σ)) (alloc n σ).1).
Proof.
  intros i m Hm. exists m. split; [|apply node_grows_refl].
  simpl. by apply lookup_app_l_Some.
Qed.

Lemma heap_grows_push c par σ :
  heap_grows σ (update_node (push_child_node c) par σ).
Proof.
  intros i m Hm. simpl. destruct (decide (par = i)) as [->|Hne].
  - exists (push_child_node c m). rewrite list_lookup_alter_eq, Hm.
    split; [done|]. repeat split. simpl. by apply prefix_app_r.
  - exists m. rewrite list_lookup_alter_ne by done.
    split; [done|apply node_grows_refl].
Qed.

Lemma heap_grows_length σ σ' :
  heap_grows σ σ' → (length (heap σ) ≤ length (heap σ'))%nat.
Proof.
  intros H. destruct (heap σ) as [|n0 l] eqn:E using rev_ind; [simpl; lia|].
  clear IHl. destruct (H (length l) n0) as (n' & Hn' & _).
  { rewrite E. by apply list_lookup_middle. }
  apply lookup_lt_Some in Hn'. rewrite length_app. simpl. lia.
Qed.

(** What [newNode] does to the store of nodes: the nodes there keep their
    fields, and every node it adds is unstamped but for the children it
    was given. *)
Lemma newNode_heap path :
  ∀ σ σ' id, newNode path σ = Some (σ', id) →
    heap_grows σ σ' ∧
    ∀ i, (length (heap σ) ≤ i < length (heap σ'))%nat →
      ∃ n, heap σ' !! i = Some n ∧
           type n = "" ∧ parentType n = "" ∧
           TreeBuilder.startTime n = 0%N ∧ TreeBuilder.endTime n = 0%N ∧
           error n = [].
Proof.
  induction path as [k0|pp k0 IH] using path_ind; intros σ σ' id;
    rewrite newNode_eq; unfold alloc, ensureParentNode; cbv zeta beta iota;
    set (path := Path _ k0);
    set (n0 := set_id (key path) new_Node);
    set (σ2 := nodes_set _ _ _);
    (assert (heap σ2 = heap σ ++ [n0]) as Hh2 by done);
    (assert (type n0 = "" ∧ parentType n0 = "" ∧
             TreeBuilder.startTime n0 = 0%N ∧ TreeBuilder.endTime n0 = 0%N ∧
             error n0 = []) as Hn0 by (unfold n0; by destruct (key path)));
    destruct (nodes σ2 !! responsePathAsString (prev path)) as [par|] eqn:Hpar;
    simpl prev; try discriminate.
  1,2: intros [= <- <-]; split;
    [eapply heap_grows_trans; [apply heap_grows_register|apply heap_grows_push]|];
    intros i; simpl; rewrite length_alter, length_app; simpl; intros Hi;
    assert (i = length (heap σ)) as -> by lia;
    destruct (heap_grows_push (length (heap σ)) par σ2 (length (heap σ)) n0)
      as (n' & Hn' & Hg);
    [rewrite Hh2; by apply list_lookup_middle|];
    exists n'; (split; [exact Hn'|]);
    destruct Hg as (_&_&->&->&->&->&->&_); exact Hn0.
  destruct (newNode pp σ2) as [[σ3 ip]|] eqn:Hnew; [|discriminate].
  intros [= <- <-]. destruct (IH _ _ _ Hnew) as [Hg Hfresh].
  split.
  { eapply heap_grows_trans; [apply heap_grows_register|].
    eapply heap_grows_trans; [exact Hg|apply heap_grows_push]. }
  intros i. simpl. rewrite length_alter. intros Hi.
  assert (∃ n, heap σ3 !! i = Some n ∧
               type n = "" ∧ parentType n = "" ∧
               TreeBuilder.startTime n = 0%N ∧ TreeBuilder.endTime n = 0%N ∧
               error n = []) as (n & Hn & Hs).
  { destruct (decide (i = length (heap σ))) as [->|Hne].
    - destruct (Hg (length (heap σ)) n0) as (n' & Hn' & Hg').
      { rewrite Hh2. by apply list_lookup_middle. }
      exists n'. split; [done|].
      destruct Hg' as (_&_&->&->&->&->&->&_). exact Hn0.
    - apply Hfresh. rewrite Hh2, length_app. simpl. lia. }
  destruct (heap_grows_push (length (heap σ)) ip σ3 i n Hn) as (n' & Hn' & Hg').
  exists n'. split; [exact Hn'|].
  by destruct Hg' as (_&_&->&->&->&->&->&_).
Qed.

Lemma newNode_node path σ σ' id :
  newNode path σ = Some (σ', id) →
  ∃ n, heap σ' !! id = Some n ∧ node_grows (set_id (key path) new_Node) n.
Proof.
  intros Hnew. pose proof (newNode_registers _ _ _ _ Hnew) as (-> & _).
  revert Hnew. rewrite newNode_eq. unfold alloc, ensureParentNode.
  cbv zeta beta iota.
  set (n0 := set_id (key path) new_Node). set (σ2 := nodes_set _ _ _).
  assert (heap σ2 !! length (heap σ) = Some n0) as Hn0
    by (by apply list_lookup_middle).
  destruct (nodes σ2 !! responsePathAsString (prev path)) as [par|] eqn:Hpar.
  - intros [= <- ]. by apply heap_grows_push.
  - destruct (prev path) as [pp|]; [|done].
    destruct (newNode pp σ2) as [[σ3 ip]|] eqn:Hpp; [|done].
    intros [= <-]. apply newNode_heap in Hpp as [Hg _].
    eapply heap_grows_trans; [exact Hg|apply heap_grows_push|exact Hn0].
Qed.

Lemma willResolveField_heap info now σ σ' id :
  willResolveField info now σ = Some (σ', id) →
  id = length (heap σ) ∧ id < length (heap σ') ∧ heap_grows σ σ' ∧
  (∃ n, heap σ' !! id = Some n ∧
        type n = returnType info ∧ parentType n = info_parentType info ∧
        TreeBuilder.startTime n = now ∧ TreeBuilder.endTime n = 0%N ∧
        error n = [] ∧ label n = key_to_string (key (path info))) ∧
  (∀ i, id < i < length (heap σ') →
     ∃ n, heap σ' !! i = Some n ∧
          type n = "" ∧ parentType n = "" ∧
          TreeBuilder.startTime n = 0%N ∧ TreeBuilder.endTime n = 0%N ∧
          error n = []).
Proof.
  unfold willResolveField.
  destruct (newNode (path info) σ) as [[σ1 id1]|] eqn:Hnew; [|done].
  intros [= <- <-].
  pose proof (newNode_registers _ _ _ _ Hnew) as (-> & Hlt & _).
  pose proof (newNode_heap _ _ _ _ Hnew) as [Hg Hfresh].
  destruct (newNode_node _ _ _ _ Hnew) as (n & Hn & Hgn).
  split; [done|]. split; [simpl; by rewrite length_alter|].
  split.
  { intros i m Hm. destruct (Hg _ _ Hm) as (m' & Hm' & Hgm).
    exists m'. split; [|done]. simpl. rewrite list_lookup_alter_ne; [done|].
    apply lookup_lt_Some in Hm. lia. }
  split.
  { exists (stamp_start (returnType info) (info_parentType info) now n).
    simpl. rewrite list_lookup_alter_eq, Hn. split; [done|].
    destruct Hgn as (Hf & Hi & _ & _ & _ & He & Herr & _). simpl.
    repeat split; try done.
    - rewrite He. by destruct (key (path info)).
    - rewrite Herr. by destruct (key (path info)).
    - unfold label. simpl. rewrite Hf, Hi. by destruct (key (path info)). }
  intros i. simpl. rewrite length_alter. intros Hi.
  destruct (Hfresh i) as (m & Hm & Hs); [lia|].
  exists m. split; [|done]. rewrite list_lookup_alter_ne; [done|lia].
Qed.

Lemma run_events_app evs1 evs2 σ :
  run_events (evs1 ++ evs2) σ =
    match run_events evs1 σ with
    | Some σ1 => run_events evs2 σ1
    | None => None
    end.
Proof.
  revert σ. induction evs1 as [|[info now|j now] evs1 IH]; intros σ; simpl.
  - done.
  - destruct (willResolveField info now σ) as [[σ1 id]|]; [apply IH|done].
  - apply IH.
Qed.

(** Events other than the end of node [i] leave the fields of node [i] as
    they are. *)
Lemma run_events_keeps i evs :
  ∀ σ σ' n,
    run_events evs σ = Some σ' →
    forallb (λ ev, negb (is_end_of i ev)) evs = true →
    heap σ !! i = Some n →
    ∃ n', heap σ' !! i = Some n' ∧ node_grows n n'.
Proof.
  induction evs as [|[info now|j now] evs IH]; intros σ σ' n; simpl.
  - intros [= <-] _ Hn. exists n. split; [done|apply node_grows_refl].
  - destruct (willResolveField info now σ) as [[σ1 id]|] eqn:Hw; [|done].
    intros Hrun Hends Hn.
    apply willResolveField_heap in Hw as (_ & _ & Hg & _).
    destruct (Hg _ _ Hn) as (n1 & Hn1 & Hg1).
    destruct (IH _ _ _ Hrun Hends Hn1) as (n' & Hn' & Hg').
    exists n'. split; [done|]. by eapply node_grows_trans.
  - intros Hrun [Hj Hends]%andb_true_iff Hn.
    apply negb_true_iff, bool_decide_eq_false in Hj.
    apply (IH _ _ n Hrun Hends). unfold didResolveField. simpl.
    by rewrite list_lookup_alter_ne.
Qed.

(** X1. A field whose resolution starts at [t1] and ends at [t2] has a
    node with these two times and with the type names of its start event,
    whatever is resolved before, between and after, as long as the function
    returned for the node is not called a second time. *)
Theorem resolve_stamps pre info t1 mid t2 post σ0 σ σ3 :
  run_events pre σ0 = Some σ →
  run_events (pre ++ Start info t1 :: mid ++ End (length (heap σ)) t2 :: post) σ0
  = Some σ3 →
  forallb (λ ev, negb (is_end_of (length (heap σ)) ev)) (mid ++ post) = true →
  ∃ n, heap σ3 !! length (heap σ) = Some n ∧
       type n = returnType info ∧ parentType n = info_parentType info ∧
       TreeBuilder.startTime n = t1 ∧ TreeBuilder.endTime n = t2 ∧
       label n = key_to_string (key (path info)).
Proof.
  intros Hpre Hrun Hends. rewrite run_events_app, Hpre in Hrun. simpl in Hrun.
  destruct (willResolveField info t1 σ) as [[σ1 id]|] eqn:Hw; [|done].
  rewrite run_events_app in Hrun.
  destruct (run_events mid σ1) as [σ2|] eqn:Hmid; [|done]. simpl in Hrun.
  rewrite forallb_app in Hends. apply andb_true_iff in Hends as [Hm Hp].
  apply willResolveField_heap in Hw
    as (-> & _ & _ & (n1 & Hn1 & Ht & Hpt & Hs & _ & _ & Hl) & _).
  destruct (run_events_keeps _ _ _ _ _ Hmid Hm Hn1) as (n2 & Hn2 & Hg2).
  assert (heap (didResolveField (length (heap σ)) t2 σ2) !! length (heap σ)
          = Some (stamp_end t2 n2)) as Hn2'.
  { unfold didResolveField. simpl. by rewrite list_lookup_alter_eq, Hn2. }
  destruct (run_events_keeps _ _ _ _ _ Hrun Hp Hn2') as (n3 & Hn3 & Hg3).
  exists n3. split; [done|].
  destruct Hg2 as (Hf2 & Hi2 & Ht2 & Hpt2 & Hs2 & _ & _ & _).
  destruct Hg3 as (Hf3 & Hi3 & Ht3 & Hpt3 & Hs3 & He3 & _ & _).
  simpl in *. repeat split; try congruence.
  unfold label in *. by rewrite Hf3, Hi3, Hf2, Hi2.
Qed.

Lemma resolve_stamps_witness :
  ∃ σ3 n,
    run_events [Start (start_event path_a).1 5; Start (start_event path_a_b).1 6;
                End 1 9; End 2 7] constructor = Some σ3 ∧
    heap σ3 !! 1 = Some n ∧
    TreeBuilder.startTime n = 5%N ∧ TreeBuilder.endTime n = 9%N.
Proof.
  destruct (run_events [Start (start_event path_a).1 5;
                        Start (start_event path_a_b).1 6; End 1 9; End 2 7]
              constructor) as [σ3|] eqn:Hrun; [|by vm_compute in Hrun].
  destruct (resolve_stamps [] (start_event path_a).1 5
              [Start (start_event path_a_b).1 6] 9 [End 2 7]
              constructor constructor σ3 eq_refl Hrun eq_refl)
    as (n & Hn & _ & _ & Hs & He & _).
  by exists σ3, n.
Defined.

(** X2. The ancestors [willResolveField] makes up for a path, because no
    event has come for them, carry no type names, no times and no errors:
    of the nodes it allocates only the first, the one it returns, is
    stamped. *)
Theorem synthesized_nodes_unstamped info now σ σ' id :
  willResolveField info now σ = Some (σ', id) →
  id = length (heap σ) ∧
  ∀ i, id < i < length (heap σ') →
    ∃ n, heap σ' !! i = Some n ∧
         type n = "" ∧ parentType n = "" ∧
         TreeBuilder.startTime n = 0%N ∧ TreeBuilder.endTime n = 0%N ∧
         error n = [].
Proof. intros H. apply willResolveField_heap in H. tauto. Qed.

Lemma synthesized_nodes_unstamped_witness :
  ∃ σ' n,
    willResolveField (start_event path_a_b).1 5 constructor = Some (σ', 1) ∧
    heap σ' !! 2 = Some n ∧ type n = "" ∧ TreeBuilder.startTime n = 0%N.
Proof.
  destruct (willResolveField (start_event path_a_b).1 5 constructor)
    as [[σ' id]|] eqn:Hw; [|by vm_compute in Hw].
  destruct (synthesized_nodes_unstamped _ _ _ _ _ Hw) as [-> Hfresh].
  destruct (Hfresh 2) as (n & Hn & Ht & _ & Hs & _).
  { vm_compute in Hw. injection Hw as <-. simpl. lia. }
  by exists σ', n.
Defined.

(** ** Start events in the order of execution *)

Lemma willResolveField_registered_parent info now σ par :
  nodes σ !! responsePathAsString (prev (path info)) = Some par →
  nodes σ !! responsePathAsString (Some (path info)) = None →
  par < length (heap σ) →
  ∃ σ',
    willResolveField info now σ = Some (σ', length (heap σ)) ∧
    nodes σ' = <[responsePathAsString (Some (path info)) := length (heap σ)]> (nodes σ) ∧
    length (heap σ') = S (length (heap σ)) ∧
    is_child σ' par (length (heap σ)) ∧
    (∀ p i, is_child σ p i → is_child σ' p i).
Proof.
  intros Hpar Hnew Hlt. unfold willResolveField. rewrite newNode_eq.
  unfold alloc, ensureParentNode. cbv zeta beta iota.
  set (k := responsePathAsString (Some (path info))) in *.
  set (n0 := set_id (key (path info)) new_Node).
  set (σ2 := nodes_set k (length (heap σ)) _).
  assert (nodes σ2 !! responsePathAsString (prev (path info)) = Some par) as ->.
  { simpl. rewrite lookup_insert_ne; [done|]. intros E. congruence. }
  eexists. split; [done|]. split; [done|].
  assert (par < length (heap σ2)) as Hlt2
    by (simpl; rewrite length_app; simpl; lia).
  split; [simpl; rewrite !length_alter, length_app; simpl; lia|].
  split.
  - apply is_child_update; [done|]. apply is_child_push; auto.
  - intros p i Hc. apply is_child_update; [done|].
    apply is_child_push; [done|]. left.
    apply (is_child_alloc n0 σ p i); [by apply child_set_id|done].
Qed.

Lemma run_in_execution_order evs :
  ∀ σ seen,
    (∀ k, is_Some (nodes σ !! k) ↔ k ∈ seen) →
    (∀ k i, nodes σ !! k = Some i → i < length (heap σ)) →
    in_execution_order seen evs = true →
    ∃ σ',
      run evs σ = Some σ' ∧
      length (heap σ') = length (heap σ) + length evs ∧
      (∀ e, e ∈ evs → linked σ' (path e.1)) ∧
      (∀ p, linked σ p → linked σ' p).
Proof.
  induction evs as [|[info now] evs IH]; intros σ seen Hdom Hlt Hord; simpl.
  - exists σ. split; [done|]. split; [lia|]. split; [|done].
    intros e He. by apply elem_of_nil in He.
  - cbn [in_execution_order] in Hord.
    apply andb_true_iff in Hord as [Hord Hrest].
    apply andb_true_iff in Hord as [Hprev Hfresh].
    apply bool_decide_eq_true in Hprev, Hfresh.
    set (k := responsePathAsString (Some (path info))) in *.
    apply Hdom in Hprev as [par Hpar].
    assert (nodes σ !! k = None) as Hk.
    { apply eq_None_not_Some. by rewrite Hdom. }
    destruct (willResolveField_registered_parent info now σ par Hpar Hk (Hlt _ _ Hpar))
      as (σ1 & -> & Hnodes & Hlen & Hchild & Hmono).
    fold k in Hnodes.
    assert (linked σ1 (path info)) as Hlinked.
    { exists (length (heap σ)), par. fold k. rewrite Hnodes.
      rewrite lookup_insert_eq. split; [done|]. split; [|done].
      rewrite lookup_insert_ne; [done|]. intros E. congruence. }
    clearbody k.
    assert (∀ p, linked σ p → linked σ1 p) as Hkeep.
    { intros p (i & q & Hi & Hq & Hc). exists i, q. rewrite Hnodes.
      rewrite !lookup_insert_ne by (intros E; congruence).
      split; [done|]. split; [done|]. by apply Hmono. }
    destruct (IH σ1 (k :: seen)) as (σ' & Hrun & Hlen' & Hall & Hkeep').
    { intros k'. rewrite Hnodes, elem_of_cons, <-Hdom.
      destruct (decide (k = k')) as [->|Hne].
      - rewrite lookup_insert_eq. split; [by left|by eexists].
      - rewrite lookup_insert_ne by done. split; [by right|].
        intros [?|?]; [congruence|done]. }
    { intros k' i. rewrite Hnodes, Hlen. intros Hi.
      apply lookup_insert_Some in Hi as [[_ <-]|[_ Hi]]; [lia|].
      apply Hlt in Hi. lia. }
    { done. }
    exists σ'. split; [done|]. split; [lia|]. split.
    + intros e [->|He]%elem_of_cons; [by apply Hkeep'|by apply Hall].
    + intros p Hp. by apply Hkeep', Hkeep.
Qed.

(** X3. When the start events come in the order of execution, each path
    once and after its prefix, no ancestor is made up: there is one node per
    event besides the root, and in the end the node registered for each path
    is a child of the node registered for its prefix. *)
Theorem execution_order_links evs :
  in_execution_order [""] evs = true →
  ∃ σ,
    run evs constructor = Some σ ∧
    length (heap σ) = S (length evs) ∧
    ∀ e, e ∈ evs → linked σ (path e.1).
Proof.
  intros Hord.
  destruct (run_in_execution_order evs constructor [""]) as (σ & Hrun & Hlen & Hall & _).
  - intros k. unfold constructor. simpl. rewrite list_elem_of_singleton.
    destruct (decide (k = "")) as [->|Hne].
    + rewrite lookup_insert_eq. split; [done|by eexists].
    + rewrite lookup_insert_ne by done. rewrite lookup_empty.
      split; [by intros [? ?]|done].
  - intros k i. unfold constructor. simpl. intros Hi.
    apply lookup_insert_Some in Hi as [[_ <-]|[_ Hi]]; [lia|done].
  - done.
  - exists σ. split; [done|]. split; [simpl in Hlen; lia|done].
Qed.

Lemma execution_order_links_witness :
  ∃ σ,
    run [start_event path_a; start_event path_a_b] constructor = Some σ ∧
    length (heap σ) = 3 ∧
    ∀ e, e ∈ [start_event path_a; start_event path_a_b] → linked σ (path e.1).
Proof.
  apply (execution_order_links [start_event path_a; start_event path_a_b]).
  by vm_compute.
Defined.

(** ** Attaching errors *)

Section attach.

Variable JSON_stringify_error : GraphQLError → string.

#[local] Abbreviation addError := (addError JSON_stringify_error).
#[local] Abbreviation trace_error := (trace_error JSON_stringify_error).


Lemma willResolveField_nodes info now σ σ' id :
  willResolveField info now σ = Some (σ', id) →
  nodes σ' !! responsePathAsString (Some (path info)) = Some id.
Proof.
  unfold willResolveField.
  destruct (newNode (path info) σ) as [[σ1 id1]|] eqn:Hnew; [|done].
  intros [= <- <-]. simpl. by apply newNode_registers in Hnew as (_ & _ & ? & _).
Qed.


End attach.



(** ** Reporting a batch of errors *)

Section reporting.

Context {World : Type}.
Variable locations_of :
  Heap World → option Ref → option Ref → option Ref → option (list (N * N)).
Variable own_enumerable : ErrorObject → ErrorObject.
Variable JSON_stringify_error : Heap World → nat → string.

#[local] Abbreviation clone := (clone own_enumerable).
#[local] Abbreviation new_GraphQLError := (new_GraphQLError locations_of).
#[local] Abbreviation rewriteError := (rewriteError locations_of own_enumerable).
#[local] Abbreviation didEncounterErrors :=
  (didEncounterErrors locations_of own_enumerable JSON_stringify_error).
#[local] Abbreviation count_reported :=
  (count_reported locations_of own_enumerable).

(** With a sound hook [rewriteError] returns, the heap keeps its objects,
    and the reference returned is to one of them. *)
Lemma rewriteError_sound hook err (h : Heap World) :
  (∀ rewrite, hook = Some rewrite → hook_sound rewrite) →
  err < length (objects h) →
  ∃ h1 c,
    rewriteError hook err h = Some (h1, c) ∧
    (length (objects h) ≤ length (objects h1))%nat ∧
    (hook = None → h1 = h ∧ c = Returns (Some err)) ∧
    ∀ r, c = Returns (Some r) → r < length (objects h1).
Proof.
  intros Hsound Hlt. destruct hook as [hook|].
  2: { exists h, (Returns (Some err)). split; [done|]. split; [done|].
       split; [done|]. by intros r [= <-]. }
  unfold ErrorPipeline.rewriteError.
  destruct (lookup_lt_is_Some_2 _ _ Hlt) as [e He]. rewrite He.
  set (h1 := alloc_object (clone e) h).
  assert (length (objects h) < length (objects h1)) as Hc
    by (simpl; rewrite length_app; simpl; lia).
  destruct (Hsound hook eq_refl (length (objects h)) h1 Hc) as [Hlen Hret].
  destruct (hook (length (objects h)) h1) as [h2 res] eqn:Hh.
  simpl in Hlen, Hret. rewrite length_app in Hlen. simpl in Hlen.
  destruct res as [| |r|].
  - eexists _, _. split; [done|]. split; [lia|]. by split.
  - eexists _, _. split; [done|]. split; [lia|]. split; [done|].
    intros r [= <-]. lia.
  - destruct (lookup_lt_is_Some_2 (objects h2) r) as [rw ->]; [by apply Hret|].
    destruct (lookup_lt_is_Some_2 (objects h2) err) as [e2 ->]; [lia|].
    destruct (new_GraphQLError_heap locations_of (o_message rw) (o_nodes e2)
                (o_source e2) (o_positions e2) (o_path e2) (o_originalError e2)
                (or_else (o_extensions rw) (o_extensions e2)) h2)
      as (e' & Hnew & Hobj & _).
    rewrite Hnew. eexists _, _. split; [done|].
    rewrite Hobj, length_app. simpl. split; [lia|]. split; [done|].
    intros r' [= <-]. lia.
  - eexists _, _. split; [done|]. split; [lia|]. by split.
Qed.



End reporting.

Lemma mask_sound {World} msg : hook_sound (@mask World msg).
Proof.
  intros c h Hc. simpl. rewrite length_alter. split; [done|].
  by intros r [= <-].
Qed.

Lemma mask_spares {World} msg c (h : Heap World) : spares (mask msg) c h.
Proof.
  split; [|by split]. intros i o Hi Ho. simpl.
  by rewrite list_lookup_alter_ne.
Qed.



(** ** More on the recorded variables *)

Lemma Details_eq (d d' : Details) :
  (∀ name, variablesJson d !! name = variablesJson d' !! name) → d = d'.
Proof. destruct d, d'. simpl. intros H. f_equal. by apply map_eq. Qed.

(** X8. The deprecated [privateVariables] means what the spec says of it:
    [true] records what no configuration at all records, [false] what
    [safelistAll: true] records, and a list what the same list of excepted
    names records. *)
Theorem makeTraceDetailsLegacy_translation variables :
  (∀ op, makeTraceDetailsLegacy variables (PrivateFlag true)
         = makeTraceDetails variables None op) ∧
  makeTraceDetailsLegacy variables (PrivateFlag false)
  = makeTraceDetails variables (Some (SafelistAll true)) None ∧
  (∀ names, makeTraceDetailsLegacy variables (PrivateNames names)
            = makeTraceDetails variables (Some (ExceptVariableNames names)) None).
Proof.
  split; [|by split]. intros op. unfold makeTraceDetailsLegacy. simpl negb.
  destruct (makeTraceDetails_returns variables (Some (SafelistAll false)) None
              variables eq_refl) as (d & -> & Hd).
  destruct (makeTraceDetails_returns variables None op variables eq_refl)
    as (d' & -> & Hd').
  f_equal. apply Details_eq. intros name. rewrite Hd, Hd'.
  destruct (decide (name = "__proto__")); [done|].
  by destruct (variables !! name).
Qed.

Lemma makeTraceDetails_dom variables svv op d :
  makeTraceDetails variables svv op = Returns d →
  dom (variablesJson d) = dom variables ∖ {["__proto__"]}.
Proof.
  intros Hd.
  assert (∃ vtr, variablesToRecord variables svv op = Returns vtr ∧
                 ∀ name, name ≠ "__proto__" →
                         (is_Some (vtr !! name) ↔ is_Some (variables !! name)))
    as (vtr & Hvtr & Hdom).
  { destruct svv as [[l|b|f]|]; try (by eexists).
    destruct (f variables op) as [modified|] eqn:Hf.
    - destruct (variablesToRecord_modifier _ _ _ _ Hf) as (vtr & Hvtr & Hl).
      exists vtr. split; [done|]. intros name Hp.
      rewrite Hl, decide_False by done.
      destruct (variables !! name); [|done]. split; by eexists.
    - rewrite makeTraceDetails_throws in Hd; [done|]. simpl. by rewrite Hf. }
  destruct (makeTraceDetails_returns _ _ _ _ Hvtr) as (d' & Hd' & Hl).
  assert (d' = d) as -> by congruence.
  apply set_eq. intros name.
  rewrite elem_of_difference, !elem_of_dom, elem_of_singleton, Hl.
  destruct (decide (name = "__proto__")) as [->|Hp].
  - split; [by intros [? ?]|]. by intros [_ ?].
  - rewrite <- (Hdom name Hp). destruct (vtr !! name) as [v|]; simpl.
    + split; [by split; [eexists|]|by eexists].
    + split; [by intros [? ?]|]. by intros [[? ?] _].
Qed.


Lemma pretty_Z_nonempty (z : Z) : pretty z ≠ "".
Proof.
  destruct z as [|p|p]; [done| |done].
  apply (pretty_N_nonempty (N.pos p)).
Qed.

Lemma Number_toString_nonempty z : Number_toString z ≠ "".
Proof.
  unfold Number_toString. destruct (Z.abs z =? 0)%Z; [done|].
  destruct (z <? 0)%Z; [by rewrite app_String|]. rewrite app_empty.
  case_match; [apply pretty_Z_nonempty|].
  unfold exponent_form.
  destruct (pretty (strip_zeros _ _)) as [|d [|c rest]] eqn:Hs; [|done|done].
  by apply pretty_Z_nonempty in Hs.
Qed.

Lemma JSON_stringify_nonempty v s : JSON_stringify v = Returns (Some s) → s ≠ "".
Proof.
  destruct v as [| |[|]|z|t|l|l| | | |]; simpl; try done; try (by intros [= <-]).
  - intros [= <-]. case_match; [apply Number_toString_nonempty|done].
  - destruct ((fix elements (l : list Value) := _) l); [|done]. by intros [= <-].
  - destruct ((fix properties (l : list (string * Value)) := _) l); [|done].
    by intros [= <-].
Qed.

(** X10. Under a name other than [__proto__], the empty string is recorded
    for a variable exactly when the policy redacts it or its value is [null]
    or [undefined]: no value that is sent has the empty string for its JSON
    text, and the text recorded when the encoding raises is not empty
    either. *)
Theorem recorded_empty_iff variables svv op vtr name v :
  variablesToRecord variables svv op = Returns vtr →
  vtr !! name = Some v → name ≠ "__proto__" →
  ∃ d, makeTraceDetails variables svv op = Returns d ∧
       (variablesJson d !! name = Some (Some "")
        ↔ redacts svv name = true ∨ is_nullish v = true).
Proof.
  intros Hvtr Hv Hp.
  destruct (makeTraceDetails_returns _ _ _ _ Hvtr) as (d & Hd & Hl).
  exists d. split; [done|]. rewrite Hl, decide_False, Hv by done. simpl.
  unfold recorded_value.
  destruct (redacts svv name); [by split; [left|]|].
  destruct (is_nullish v); [by split; [right|]|].
  split; [|by intros [?|?]].
  destruct (JSON_stringify v) as [[s|]|] eqn:Hj; [|done|done].
  intros [= ->]. by apply JSON_stringify_nonempty in Hj.
Qed.

Lemma recorded_empty_iff_witness :
  ∃ d, makeTraceDetails variables_a_b (Some (ExceptVariableNames ["b"])) None
       = Returns d ∧
       (variablesJson d !! "a" = Some (Some "")
        ↔ redacts (Some (ExceptVariableNames ["b"])) "a" = true
          ∨ is_nullish (VNumber 1) = true).
Proof.
  apply (recorded_empty_iff variables_a_b (Some (ExceptVariableNames ["b"]))
           None variables_a_b "a" (VNumber 1)).
  - reflexivity.
  - by vm_compute.
  - discriminate.
Defined.

(** ** More on the recorded headers *)

Lemma foldl_record_header_value sh headers :
  ∀ http name,
    requestHeaders (foldl (record_header sh) http headers) !! name =
      if withheld sh name || bool_decide (name = "__proto__")
      then requestHeaders http !! name
      else match header_value headers name with
           | Some value => Some [value]
           | None => requestHeaders http !! name
           end.
Proof.
  induction headers as [|[key value] headers IH] using rev_ind; intros http name.
  - simpl. by destruct (withheld sh name || bool_decide (name = "__proto__")).
  - unfold header_value. rewrite !foldl_snoc, record_header_eq. simpl.
    fold (header_value headers name).
    destruct (decide (key = name)) as [->|Hne].
    + destruct (withheld sh name) eqn:Hw; [by rewrite IH, Hw|].
      rewrite lookup_object_set. simpl.
      case_bool_decide as Hp.
      * rewrite decide_False by (by intros [_ ?]). by rewrite IH, Hw, Hp.
      * by rewrite decide_True.
    + destruct (withheld sh key).
      * apply IH.
      * rewrite lookup_object_set, decide_False by (by intros [? _]). apply IH.
Qed.



Lemma existsb_lower except key :
  existsb (λ e, bool_decide (toLowerCase e = toLowerCase key)) except
  = bool_decide (toLowerCase key ∈ toLowerCase <$> except).
Proof.
  induction except as [|e except IH]; [done|]. rewrite fmap_cons.
  cbn [existsb]. rewrite IH.
  destruct (decide (toLowerCase e = toLowerCase key)) as [E|E].
  - rewrite (bool_decide_eq_true_2 _ E). simpl. symmetry.
    apply bool_decide_eq_true_2. rewrite <- E. by left.
  - rewrite (bool_decide_eq_false_2 _ E). simpl. apply bool_decide_ext.
    split; [by right|]. intros [?|?]%elem_of_cons; [congruence|done].
Qed.

Lemma record_header_lower except except' :
  toLowerCase <$> except' = toLowerCase <$> except →
  ∀ http entry,
    record_header (Except except') http entry
    = record_header (Except except) http entry.
Proof.
  intros E http [key value]. unfold record_header.
  by rewrite !existsb_lower, E.
Qed.

(** X12. The case in which the exceptions and the header names are written
    does not matter: two lists of exceptions that are the same in lower case
    record the same headers, and a header whose name is in lower case that
    of an exception in lower case is not recorded. *)
Theorem except_list_ignores_case http headers except :
  (∀ except', toLowerCase <$> except' = toLowerCase <$> except →
     makeHTTPRequestHeaders http headers (Some (Except except'))
     = makeHTTPRequestHeaders http headers (Some (Except except))) ∧
  (∀ key, toLowerCase key ∈ toLowerCase <$> except →
     requestHeaders (makeHTTPRequestHeaders http headers (Some (Except except)))
       !! key = requestHeaders http !! key).
Proof.
  split.
  - intros except' E. unfold makeHTTPRequestHeaders. revert http.
    induction headers as [|entry headers IH]; intros http; [done|].
    cbn [foldl]. by rewrite (record_header_lower _ _ E), IH.
  - intros key (e & He & Hin)%list_elem_of_fmap.
    apply makeHTTPRequestHeaders_withheld. intros s [= <-].
    by eapply withheld_except.
Qed.

Lemma except_list_ignores_case_witness :
  makeHTTPRequestHeaders (new_HTTP (http_method "GET"))
    [("X-Token", "t"); ("accept", "*/*")] (Some (Except ["X-TOKEN"]))
  = makeHTTPRequestHeaders (new_HTTP (http_method "GET"))
      [("X-Token", "t"); ("accept", "*/*")] (Some (Except ["x-token"])) ∧
  requestHeaders
    (makeHTTPRequestHeaders (new_HTTP (http_method "GET"))
       [("X-Token", "t"); ("accept", "*/*")] (Some (Except ["x-token"])))
    !! "X-Token" = None.
Proof.
  split.
  - apply (proj1 (except_list_ignores_case (new_HTTP (http_method "GET"))
                    [("X-Token", "t"); ("accept", "*/*")] ["x-token"])).
    reflexivity.
  - apply (proj2 (except_list_ignores_case (new_HTTP (http_method "GET"))
                    [("X-Token", "t"); ("accept", "*/*")] ["x-token"])).
    apply (bool_decide_eq_true_1 _). by vm_compute.
Defined.

(** ** Times *)

(** X13. The timestamp of a date is the same instant: its seconds and
    nanoseconds add up to the milliseconds of the date. For a date from
    1970 on, the seconds are the whole seconds and the nanoseconds are
    within one second. *)
Theorem dateToTimestamp_instant (totalMillis : Z) :
  (seconds (dateToTimestamp totalMillis) * 1000000000
   + nanos (dateToTimestamp totalMillis) = totalMillis * 1000000)%Z ∧
  ((0 ≤ totalMillis)%Z →
   seconds (dateToTimestamp totalMillis) = (totalMillis `div` 1000)%Z ∧
   (0 ≤ nanos (dateToTimestamp totalMillis) < 1000000000)%Z).
Proof.
  unfold dateToTimestamp. simpl.
  pose proof (Z.quot_rem' totalMillis 1000) as Hqr.
  assert (((totalMillis - totalMillis `rem` 1000) `quot` 1000
           = totalMillis `quot` 1000)%Z) as ->.
  { replace (totalMillis - totalMillis `rem` 1000)%Z
      with ((totalMillis `quot` 1000) * 1000)%Z by lia.
    by apply Z.quot_mul. }
  split; [lia|]. intros Hpos.
  rewrite Z.quot_div_nonneg by lia.
  pose proof (Z.rem_bound_pos totalMillis 1000 Hpos). split; [done|lia].
Qed.

Lemma dateToTimestamp_instant_witness :
  seconds (dateToTimestamp 1500) = (1500 `div` 1000)%Z ∧
  (0 ≤ nanos (dateToTimestamp 1500) < 1000000000)%Z.
Proof. apply (proj2 (dateToTimestamp_instant 1500)). lia. Defined.

Lemma nearest_exact z : (Z.abs z < 2 ^ 53)%Z → nearest z = z.
Proof.
  intros H. unfold nearest. by rewrite (proj2 (Z.ltb_lt _ _) H).
Qed.

(** X14. On readings of [process.hrtime] (seconds, and nanoseconds within
    a second) that stand for less than [2^53] nanoseconds, about 104 days,
    the conversion is exact: it gives the number of nanoseconds, so a later
    reading gives a larger number, and equal numbers come from equal
    readings. Past that bound it is not: two readings one nanosecond apart
    give the same number. *)
Theorem durationHrTimeToNanos_order :
  (∀ a b : Z * Z,
     (0 ≤ a.1)%Z → (0 ≤ a.2 < 1000000000)%Z →
     (a.1 * 1000000000 + a.2 < 2 ^ 53)%Z →
     (0 ≤ b.1)%Z → (0 ≤ b.2 < 1000000000)%Z →
     (b.1 * 1000000000 + b.2 < 2 ^ 53)%Z →
     durationHrTimeToNanos a = (a.1 * 1000000000 + a.2)%Z ∧
     ((durationHrTimeToNanos a ≤ durationHrTimeToNanos b)%Z
      ↔ (a.1 < b.1)%Z ∨ (a.1 = b.1 ∧ (a.2 ≤ b.2)%Z)) ∧
     (durationHrTimeToNanos a = durationHrTimeToNanos b → a = b)) ∧
  durationHrTimeToNanos (9007199, 254740992)%Z
  = durationHrTimeToNanos (9007199, 254740993)%Z.
Proof.
  split; [|by vm_compute].
  assert (∀ c : Z * Z,
            (0 ≤ c.1)%Z → (0 ≤ c.2 < 1000000000)%Z →
            (c.1 * 1000000000 + c.2 < 2 ^ 53)%Z →
            durationHrTimeToNanos c = (c.1 * 1000000000 + c.2)%Z) as Hexact.
  { intros [s n]. unfold durationHrTimeToNanos. simpl. intros Hs Hn Hlt.
    rewrite (nearest_exact (s * 1000000000)) by lia.
    apply nearest_exact. lia. }
  intros [s1 n1] [s2 n2] Hs1 Hn1 Hl1 Hs2 Hn2 Hl2.
  rewrite (Hexact _ Hs1 Hn1 Hl1), (Hexact _ Hs2 Hn2 Hl2). simpl in *.
  split; [done|]. split; [lia|]. intros H. f_equal; lia.
Qed.

Lemma durationHrTimeToNanos_order_witness :
  durationHrTimeToNanos (1, 999999999)%Z = (1 * 1000000000 + 999999999)%Z ∧
  ((durationHrTimeToNanos (1, 999999999)%Z ≤ durationHrTimeToNanos (2, 0)%Z)%Z
   ↔ (1 < 2)%Z ∨ (1%Z = 2%Z ∧ (999999999 ≤ 0)%Z)) ∧
  (durationHrTimeToNanos (1, 999999999)%Z = durationHrTimeToNanos (2, 0)%Z →
   (1, 999999999)%Z = (2, 0)%Z).
Proof.
  apply (proj1 durationHrTimeToNanos_order (1, 999999999)%Z (2, 0)%Z);
    simpl; lia.
Defined.

(** ** The operation name and the client handed on *)

Lemma executions_snoc calls call ext :
  executions (calls ++ [call]) ext
  = executionDidStart call.1 call.2 (executions calls ext).
Proof. unfold executions. by rewrite foldl_snoc. Qed.

Lemma executions_name calls ext :
  explicitOperationName (executions calls ext) =
    match last (filter (λ call, string_truthy call.1 = true) calls) with
    | Some call => call.1
    | None => explicitOperationName ext
    end.
Proof.
  induction calls as [|call calls IH] using rev_ind; [done|].
  rewrite executions_snoc, filter_app. simpl.
  rewrite filter_cons, filter_nil.
  destruct (string_truthy call.1) eqn:Ht.
  - rewrite decide_True by done. by rewrite last_snoc.
  - rewrite decide_False by done. by rewrite app_nil_r.
Qed.

(** X15. The operation name handed to [addTrace] is the last non-empty
    name given in a call of [executionDidStart]: a later call with a name
    replaces it, a call without one leaves it. When there was none it is
    the name on the request context, when that is not empty, and the empty
    string otherwise. After any call of [executionDidStart] the document
    handed on is that of the last call. *)
Theorem handed_operation_name calls qs parsed hash ctx_name ctx_doc metrics
    elapsed now trace :
  let ext := executions calls (requestDidStart_fields qs parsed new_Extension) in
  let args := end_handler ext hash ctx_name ctx_doc metrics elapsed now trace in
  args_operationName args =
    match last (filter (λ call, string_truthy call.1 = true) calls) with
    | Some call => text call.1
    | None => text ctx_name
    end ∧
  args_documentAST args =
    match last calls with
    | Some call => Some call.2
    | None => or_else parsed ctx_doc
    end.
Proof.
  intros ext args. subst args. unfold end_handler.
  cbn [args_operationName args_documentAST]. split.
  - unfold ext. rewrite executions_name.
    cbn [requestDidStart_fields explicitOperationName new_Extension].
    destruct (last (filter _ calls)) as [call|] eqn:Hl.
    + apply last_Some_elem_of, list_elem_of_filter in Hl as [Ht _].
      unfold text, or_string at 2. by rewrite Ht.
    + done.
  - unfold ext. destruct calls as [|call calls _] using rev_ind; [done|].
    by rewrite executions_snoc, last_snoc.
Qed.

(** X21. The client identity recorded by default: when one of the three
    client headers has a non-empty value, the three fields are the values of
    the headers, the empty string for a header that is missing, and what the
    request extensions say is not used, not even for a missing header.
    Without any such header the fields are those of the extensions, and
    empty strings when there are none. *)
Theorem client_identity_from_headers headers clientInfo :
  let recorded := record_client (defaultGenerateClientInfo (Some headers) clientInfo) in
  (string_truthy (header_value headers clientNameHeaderKey)
   || string_truthy (header_value headers clientVersionHeaderKey)
   || string_truthy (header_value headers clientReferenceIdHeaderKey) = true →
   recorded =
     {| trace_clientName := text (header_value headers clientNameHeaderKey);
        trace_clientVersion := text (header_value headers clientVersionHeaderKey);
        trace_clientReferenceId :=
          text (header_value headers clientReferenceIdHeaderKey) |}) ∧
  (string_truthy (header_value headers clientNameHeaderKey)
   || string_truthy (header_value headers clientVersionHeaderKey)
   || string_truthy (header_value headers clientReferenceIdHeaderKey) = false →
   recorded =
     match clientInfo with
     | Some info =>
         {| trace_clientName := text (clientName info);
            trace_clientVersion := text (clientVersion info);
            trace_clientReferenceId := text (clientReferenceId info) |}
     | None =>
         {| trace_clientName := ""; trace_clientVersion := "";
            trace_clientReferenceId := "" |}
     end).
Proof.
  simpl. unfold defaultGenerateClientInfo. split; intros ->; [done|].
  by destruct clientInfo.
Qed.

Lemma client_identity_from_headers_witness :
  record_client
    (defaultGenerateClientInfo
       (Some [("apollographql-client-name", "web")])
       (Some {| clientName := Some "ext"; clientVersion := Some "1.0";
                clientReferenceId := None |}))
  = {| trace_clientName := "web"; trace_clientVersion := "";
       trace_clientReferenceId := "" |}.
Proof.
  apply (proj1 (client_identity_from_headers
                  [("apollographql-client-name", "web")]
                  (Some {| clientName := Some "ext"; clientVersion := Some "1.0";
                           clientReferenceId := None |}))).
  reflexivity.
Defined.

(** ** The earlier version of the extension *)

(** X16. What the earlier version recorded of the headers, all of them but
    the three fixed names, is what the current version records under
    [safelistAll: true]. *)
Theorem earlier_headers_are_safelistAll http headers :
  Earlier.record_headers http headers
  = makeHTTPRequestHeaders http headers (Some (HeadersSafelistAll true)).
Proof.
  unfold Earlier.record_headers, makeHTTPRequestHeaders.
  revert http. induction headers as [|[key value] headers IH]; intros http;
    [done|].
  cbn [foldl]. rewrite IH. done.
Qed.

Lemma forEach_throws {A S} (f : A → S → Completion S) (l : list A) (s : S) :
  forEach f l s = Throws →
  ∃ x s', x ∈ l ∧ f x s' = Throws.
Proof.
  revert s. induction l as [|x l IH]; intros s; simpl; [done|].
  destruct (f x s) as [s1|] eqn:Hf.
  - intros (y & s' & Hy & Hs)%IH. exists y, s'. split; [by right|done].
  - intros _. exists x, s. split; [by left|done].
Qed.

Lemma forEach_returns {A S} (f : A → S → Completion S) (l : list A) (s : S) :
  (∀ x s', x ∈ l → f x s' ≠ Throws) → ∃ s1, forEach f l s = Returns s1.
Proof.
  revert s. induction l as [|x l IH]; intros s Hf; simpl; [by eexists|].
  destruct (f x s) as [s1|] eqn:Hx.
  - apply IH. intros y s' Hy. apply Hf. by right.
  - destruct (Hf x s); [by left|done].
Qed.

(** X17. The earlier version had no guard around the encoding: its
    [requestDidStart] raises exactly when [privateVariables] is not [true]
    and [JSON.stringify] raises on the value of a variable that is not
    listed as private. *)
Theorem earlier_details_raise privateVariables variables :
  Earlier.details privateVariables (Some variables) = Throws ↔
  privateVariables ≠ Some (PrivateFlag true) ∧
  ∃ name v, variables !! name = Some v ∧
            Earlier.listed privateVariables name = false ∧
            JSON_stringify v = Throws.
Proof.
  assert (∀ name d, Earlier.record_variable privateVariables variables name d
                    = Throws ↔
                    Earlier.listed privateVariables name = false ∧
                    JSON_stringify (object_get variables name) = Throws) as Hrec.
  { intros name d. unfold Earlier.record_variable.
    destruct (Earlier.listed privateVariables name); [by split; [|intros []]|].
    destruct (JSON_stringify (object_get variables name)) as [[s|]|];
      by split; [|intros []]. }
  assert (Earlier.details privateVariables (Some variables) = Throws ↔
          privateVariables ≠ Some (PrivateFlag true) ∧
          forEach (Earlier.record_variable privateVariables variables)
                  (Object_keys variables) new_Details = Throws) as ->.
  { unfold Earlier.details.
    destruct privateVariables as [[names|[|]]|];
      destruct (forEach _ _ _); by split; [|intros []]. }
  split; intros [Hpv H]; (split; [done|]).
  - apply forEach_throws in H as (name & d & Hin & Hthrow).
    apply Hrec in Hthrow as [Hl Hj].
    apply elem_of_Object_keys in Hin as [v Hv].
    exists name, v. unfold object_get in Hj. rewrite Hv in Hj. done.
  - destruct H as (name & v & Hv & Hl & Hj).
    destruct (forEach _ _ _) as [d|] eqn:Hfor; [|done]. exfalso.
    assert (∀ l d0 d1,
              forEach (Earlier.record_variable privateVariables variables) l d0
              = Returns d1 → name ∉ l) as Hnot.
    { induction l as [|x l IH]; intros d0 d1; simpl;
        [intros _; apply not_elem_of_nil|].
      destruct (Earlier.record_variable privateVariables variables x d0)
        as [d2|] eqn:Hx; [|done].
      intros Hl'%IH. intros [<-|?]%elem_of_cons; [|done].
      assert (Earlier.record_variable privateVariables variables name d0 = Throws)
        as Ht; [|congruence].
      apply Hrec. split; [done|]. unfold object_get. by rewrite Hv. }
    apply (Hnot _ _ _ Hfor), elem_of_Object_keys. by eexists.
Qed.

(** X18. Where the earlier version did not raise and no unlisted variable
    was [null] or [undefined], it recorded what the current version records
    for the deprecated option: the two differ only in that the current one
    writes the empty string for [null] and [undefined] and a fixed text for
    a value it cannot encode. *)
Theorem earlier_details_agree names variables :
  (∀ name v, variables !! name = Some v → name ∉ names →
             is_nullish v = false ∧ JSON_stringify v ≠ Throws) →
  ∃ d, Earlier.details (Some (PrivateNames names)) (Some variables)
       = Returns (Some d) ∧
       makeTraceDetailsLegacy variables (PrivateNames names) = Returns d.
Proof.
  intros Hok. unfold makeTraceDetailsLegacy, makeTraceDetails, Earlier.details.
  cbn [variablesToRecord].
  assert (∀ l d0,
            Forall (λ name, is_Some (variables !! name)) l →
            forEach (Earlier.record_variable (Some (PrivateNames names)) variables)
                    l d0
            = forEach (record_variable (Some (ExceptVariableNames names)) variables)
                      l d0) as Heq.
  { induction l as [|x l IH]; intros d0 Hl; [done|].
    apply Forall_cons in Hl as [[v Hv] Hl]. cbn [forEach].
    assert (Earlier.record_variable (Some (PrivateNames names)) variables x d0
            = record_variable (Some (ExceptVariableNames names)) variables x d0)
      as ->.
    { unfold Earlier.record_variable, record_variable. simpl.
      case_bool_decide as Hx; [done|].
      destruct (Hok x v Hv Hx) as [Hn Hj].
      unfold object_get. rewrite Hv. simpl. rewrite Hn.
      unfold try_catch, assign_json.
      by destruct (JSON_stringify v) as [[s|]|]. }
    destruct (record_variable _ variables x d0); [by apply IH|done]. }
  rewrite Heq.
  2: { apply Forall_forall. intros name. by rewrite elem_of_Object_keys. }
  destruct (forEach_record_variable (Some (ExceptVariableNames names)) variables
              (Object_keys variables) new_Details) as (d & -> & _).
  by exists d.
Qed.

Lemma earlier_details_agree_witness :
  ∃ d, Earlier.details (Some (PrivateNames ["b"])) (Some variables_a_b)
       = Returns (Some d) ∧
       makeTraceDetailsLegacy variables_a_b (PrivateNames ["b"]) = Returns d.
Proof.
  apply (earlier_details_agree ["b"] variables_a_b).
  intros name v Hv Hn.
  destruct (decide (name = "a")) as [->|Ha].
  - vm_compute in Hv. by injection Hv as <-.
  - destruct (decide (name = "b")) as [->|Hb]; [set_solver|].
    unfold variables_a_b in Hv.
    rewrite !lookup_insert_ne in Hv by done. by rewrite lookup_empty in Hv.
Defined.

Lemma earlier_details_raise_witness :
  Earlier.details None (Some (<["c" := VCircular]> ∅)) = Throws.
Proof.
  apply (proj2 (earlier_details_raise None (<["c" := VCircular]> ∅))).
  split; [done|]. exists "c", VCircular. by vm_compute.
Defined.

(** ** Unique type names *)

Section unique.

Variable schema_node : string → option UniqueTypeNames.TypeNode.
Variable diffTypeNodes :
  UniqueTypeNames.TypeNode → UniqueTypeNames.TypeNode → UniqueTypeNames.Diff.
Variable isTypeNodeAnEntity : UniqueTypeNames.TypeNode → bool.

#[local] Abbreviation checkTypeName :=
  (UniqueTypeNames.checkTypeName schema_node diffTypeNodes isTypeNodeAnEntity).
#[local] Abbreviation visit :=
  (UniqueTypeNames.visit schema_node diffTypeNodes isTypeNodeAnEntity).
#[local] Abbreviation every_field := UniqueTypeNames.every_field.
#[local] Abbreviation tname := UniqueTypeNames.name.
#[local] Abbreviation known := UniqueTypeNames.knownTypeNames.
#[local] Abbreviation reports := UniqueTypeNames.reported.
#[local] Abbreviation visited := UniqueTypeNames.visited.
#[local] Abbreviation visited_names := UniqueTypeNames.visited_names.

Lemma visit_cons node document v :
  visit (node :: document) v
  = visit document (if visited node then checkTypeName node v else v).
Proof. done. Qed.

Lemma checkTypeName_unknown node v :
  schema_node (tname node) = None →
  checkTypeName node v =
    match known v !! tname node with
    | Some first =>
        UniqueTypeNames.reportError
          {| UniqueTypeNames.report_message :=
               UniqueTypeNames.duplicateTypeNameMessage (tname node);
             UniqueTypeNames.report_nodes :=
               [UniqueTypeNames.ident first; UniqueTypeNames.ident node] |} v
    | None =>
        {| UniqueTypeNames.knownTypeNames := <[tname node := node]> (known v);
           UniqueTypeNames.reported := reports v |}
    end.
Proof. unfold UniqueTypeNames.checkTypeName. by intros ->. Qed.

Lemma visit_reports_grow document :
  ∀ v, (∀ node, node ∈ document → schema_node (tname node) = None) →
       reports (visit document v) = [] → reports v = [].
Proof.
  induction document as [|node document IH]; intros v Hs; [done|].
  rewrite visit_cons. intros H%IH; [|intros n Hn; apply Hs; by right].
  destruct (visited node); [|done].
  rewrite checkTypeName_unknown in H by (apply Hs; by left).
  destruct (known v !! tname node); [|done].
  simpl in H. by apply app_nil in H as [_ ?].
Qed.

Lemma visited_names_cons node document :
  visited_names (node :: document) =
    if visited node then tname node :: visited_names document
    else visited_names document.
Proof.
  unfold UniqueTypeNames.visited_names. rewrite filter_cons.
  destruct (visited node); [by rewrite decide_True|by rewrite decide_False].
Qed.

Lemma visit_no_report document :
  ∀ v, (∀ node, node ∈ document → schema_node (tname node) = None) →
       (reports (visit document v) = [] ↔
        reports v = [] ∧ NoDup (visited_names document) ∧
        ∀ x, x ∈ visited_names document → known v !! x = None).
Proof.
  induction document as [|node document IH]; intros v Hs.
  - simpl. split; [intros ->|by intros [? _]].
    split; [done|]. split; [constructor|]. intros x Hx. by apply elem_of_nil in Hx.
  - rewrite visit_cons, visited_names_cons.
    assert (∀ n, n ∈ document → schema_node (tname n) = None) as Hs'
      by (intros n Hn; apply Hs; by right).
    destruct (visited node) eqn:Hv; [|by apply IH].
    rewrite IH by done.
    rewrite checkTypeName_unknown by (apply Hs; by left).
    destruct (known v !! tname node) as [first|] eqn:Hk.
    + simpl. split.
      * intros [H _]. by apply app_nil in H as [_ ?].
      * intros (_ & _ & H). rewrite H in Hk; [done|by left].
    + simpl. rewrite NoDup_cons. split.
      * intros (Hr & Hnd & Hx). split; [done|]. split.
        -- split; [|done]. intros Hin. specialize (Hx _ Hin).
           by rewrite lookup_insert_eq in Hx.
        -- intros x [->|Hin]%elem_of_cons; [done|].
           specialize (Hx _ Hin).
           destruct (decide (tname node = x)) as [<-|Hne]; [done|].
           by rewrite lookup_insert_ne in Hx.
      * intros (Hr & [Hnin Hnd] & Hx). split; [done|]. split; [done|].
        intros x Hin. rewrite lookup_insert_ne; [apply Hx; by right|].
        intros <-. done.
Qed.

(** X19. For a document none of whose type names the schema has, the
    visitor reports nothing exactly when the object, interface, union and
    input object definitions have names that differ from one another.
    Scalar and enum definitions are not looked at: their names may
    repeat. *)
Theorem unique_type_names document :
  (∀ node, node ∈ document → schema_node (tname node) = None) →
  (reports (visit document UniqueTypeNames.new_Visitor) = []
   ↔ NoDup (visited_names document)).
Proof.
  intros Hs. rewrite visit_no_report by done. simpl. split.
  - by intros (_ & ? & _).
  - intros Hnd. split; [done|]. split; [done|]. intros x _. apply lookup_empty.
Qed.

Lemma every_field_all node fromSchema fieldsDiff :
  ∀ acc,
    Forall (λ entry, length entry.2 = 2) fieldsDiff →
    every_field node fromSchema fieldsDiff acc =
      (true,
       acc ++ ((λ entry,
                  {| UniqueTypeNames.report_message :=
                       UniqueTypeNames.fieldMismatchMessage (tname node)
                         entry.1 entry.2;
                     UniqueTypeNames.report_nodes :=
                       [UniqueTypeNames.ident node;
                        UniqueTypeNames.ident fromSchema] |}) <$> fieldsDiff)).
Proof.
  induction fieldsDiff as [|[f types] rest IH]; intros acc Hall; simpl.
  - by rewrite app_nil_r.
  - apply Forall_cons in Hall as [Hf Hall]. simpl in Hf.
    rewrite bool_decide_eq_true_2 by done. rewrite IH by done.
    by rewrite <-app_assoc.
Qed.

Lemma every_field_some node fromSchema fieldsDiff :
  ∀ acc,
    ¬ Forall (λ entry, length entry.2 = 2) fieldsDiff →
    (every_field node fromSchema fieldsDiff acc).1 = false.
Proof.
  induction fieldsDiff as [|[f types] rest IH]; intros acc Hall; simpl.
  - destruct Hall. constructor.
  - case_bool_decide as Hf; [|done]. apply IH. intros Hrest.
    apply Hall. by constructor.
Qed.

Lemma foldl_reportError l v :
  reports (foldl (λ v r, UniqueTypeNames.reportError r v) v l) = reports v ++ l
  ∧ known (foldl (λ v r, UniqueTypeNames.reportError r v) v l) = known v.
Proof.
  revert v. induction l as [|r l IH]; intros v; simpl.
  - by rewrite app_nil_r.
  - destruct (IH (UniqueTypeNames.reportError r v)) as [-> ->]. simpl.
    by rewrite <-app_assoc.
Qed.

(** X20. For a definition whose name the schema already has. If it is a
    union, or if among the differing fields one is on one side only, the
    visitor reports the one error that the type exists already, and the
    field mismatches it had collected until then are not reported. If not,
    the definition is taken for a value type: that error is not reported,
    and what is reported is one mismatch for each differing field, then the
    kind mismatch when the kinds differ, then the entity error when one of
    the two is an entity; nothing at all for a definition that is the same
    as that of the schema and is no entity. The known names are not touched
    in either case. *)
Theorem checkTypeName_in_schema node fromSchema v :
  schema_node (tname node) = Some fromSchema →
  let d := diffTypeNodes node fromSchema in
  known (checkTypeName node v) = known v ∧
  reports (checkTypeName node v) =
    reports v ++
    if bool_decide (UniqueTypeNames.kind node ≠ UniqueTypeNames.UNION_TYPE_DEFINITION)
       && bool_decide (Forall (λ entry, length entry.2 = 2)
                              (UniqueTypeNames.diff_fields d))
    then
      ((λ entry,
          {| UniqueTypeNames.report_message :=
               UniqueTypeNames.fieldMismatchMessage (tname node) entry.1 entry.2;
             UniqueTypeNames.report_nodes :=
               [UniqueTypeNames.ident node; UniqueTypeNames.ident fromSchema] |})
         <$> UniqueTypeNames.diff_fields d)
      ++ (if bool_decide (0 < length (UniqueTypeNames.diff_kind d))
          then [{| UniqueTypeNames.report_message :=
                     UniqueTypeNames.kindMismatchMessage (tname node)
                       (UniqueTypeNames.diff_kind d);
                   UniqueTypeNames.report_nodes :=
                     [UniqueTypeNames.ident node;
                      UniqueTypeNames.ident fromSchema] |}]
          else [])
      ++ (if isTypeNodeAnEntity node || isTypeNodeAnEntity fromSchema
          then [{| UniqueTypeNames.report_message := UniqueTypeNames.entityMessage;
                   UniqueTypeNames.report_nodes := [] |}]
          else [])
    else
      [{| UniqueTypeNames.report_message :=
            UniqueTypeNames.existedTypeNameMessage (tname node);
          UniqueTypeNames.report_nodes := [UniqueTypeNames.ident node] |}].
Proof.
  intros Hs d. unfold UniqueTypeNames.checkTypeName. rewrite Hs. fold d.
  case_bool_decide as Hk; [|by simpl]. simpl andb.
  destruct (decide (Forall (λ entry : string * list string, length entry.2 = 2)
                      (UniqueTypeNames.diff_fields d))) as [Hall|Hall];
    [rewrite (bool_decide_eq_true_2 _ Hall)
    |rewrite (bool_decide_eq_false_2 _ Hall)].
  - rewrite every_field_all by done. simpl app.
    rewrite orb_true_r.
    set (errs := _ <$> UniqueTypeNames.diff_fields d).
    destruct (foldl_reportError errs v) as [Hr Hkn].
    destruct (bool_decide (0 < length (UniqueTypeNames.diff_kind d)));
      destruct (isTypeNodeAnEntity node || isTypeNodeAnEntity fromSchema);
      simpl; rewrite Hr, Hkn, ?app_nil_r, <-?app_assoc; done.
  - pose proof (every_field_some node fromSchema _ [] Hall) as He.
    destruct (every_field node fromSchema (UniqueTypeNames.diff_fields d) [])
      as [every possible]. simpl in He. subst every.
    rewrite bool_decide_eq_false_2; [by simpl|].
    intros Hlen. apply Hall.
    destruct (UniqueTypeNames.diff_fields d); [constructor|done].
Qed.

End unique.

Lemma unique_type_names_witness :
  UniqueTypeNames.reported
    (UniqueTypeNames.visit (λ _, None)
       (λ _ _, {| UniqueTypeNames.diff_kind := [];
                  UniqueTypeNames.diff_fields := [] |})
       (λ _, false)
       [{| UniqueTypeNames.name := "Color";
           UniqueTypeNames.kind := UniqueTypeNames.ENUM_TYPE_DEFINITION;
           UniqueTypeNames.ident := 0 |};
        {| UniqueTypeNames.name := "Color";
           UniqueTypeNames.kind := UniqueTypeNames.ENUM_TYPE_DEFINITION;
           UniqueTypeNames.ident := 1 |};
        {| UniqueTypeNames.name := "User";
           UniqueTypeNames.kind := UniqueTypeNames.OBJECT_TYPE_DEFINITION;
           UniqueTypeNames.ident := 2 |}]
       UniqueTypeNames.new_Visitor) = [].
Proof.
  apply unique_type_names.
  - done.
  - by vm_compute; repeat constructor; set_solver.
Defined.

Lemma checkTypeName_in_schema_witness :
  let money := {| UniqueTypeNames.name := "Money";
                  UniqueTypeNames.kind := UniqueTypeNames.OBJECT_TYPE_DEFINITION;
                  UniqueTypeNames.ident := 0 |} in
  UniqueTypeNames.reported
    (UniqueTypeNames.checkTypeName (λ _, Some money)
       (λ _ _, {| UniqueTypeNames.diff_kind := [];
                  UniqueTypeNames.diff_fields := [] |})
       (λ _, false) money UniqueTypeNames.new_Visitor) = [].
Proof.
  intros money.
  exact (proj2 (checkTypeName_in_schema (λ _, Some money)
                  (λ _ _, {| UniqueTypeNames.diff_kind := [];
                             UniqueTypeNames.diff_fields := [] |})
                  (λ _, false) money money UniqueTypeNames.new_Visitor eq_refl)).
Defined.
